(** * The normalizer of react-pptx: JSX presentation trees to internal nodes

    A shallow embedding of [src/normalizer.ts].  JavaScript objects whose
    set of keys is open (style objects, text parts) keep the difference
    between a key that is missing and a key that holds [undefined], since
    object spread copies the second and not the first.  Exceptions are
    results of type [outcome]. *)

From Stdlib Require Import ZArith QArith Qround Qpower Qabs Lqa String Ascii List Bool Lia.
From Stdlib Require SpecFloat.
From stdpp Require Import base option gmap strings list pretty.

Set Warnings "-register-all".

Local Open Scope string_scope.
Local Open Scope list_scope.

(** ** JavaScript values *)

(** A JavaScript [number] is an IEEE 754 binary64 float.  A finite one is
    kept as the rational that it denotes; [NaN] and the infinities have no
    counterpart, and the two zeros are one.  The normalizer copies numbers
    and compares them, which is exact, and it multiplies two of them once,
    in [normalizeHexOrComplexColor]: that product is [times] below, the
    exact one rounded to binary64. *)
Definition number := Q.

(** ** Binary64 arithmetic *)

(** [2^e] *)
Definition pow2 (e : Z) : Q := (2 ^ e)%Q.

(** The integer nearest to [q], a tie going to the even one. *)
Definition rne (q : Q) : Z :=
  let f := Qfloor q in
  match (q - inject_Z f ?= 1 # 2)%Q with
  | Lt => f
  | Gt => (f + 1)%Z
  | Eq => if Z.even f then f else (f + 1)%Z
  end.

(** For [0 < q], the [d] with [2^d <= q < 2^(d+1)]. *)
Definition floor_log2 (q : Q) : Z :=
  let d := (Z.log2 (Qnum q) - Z.log2 (Zpos (Qden q)))%Z in
  if Qle_bool (pow2 d) q then d else (d - 1)%Z.

(** The exponent of the last bit of the floats around [q], for [0 < q]: a
    significand has 53 bits, and the subnormal floats are the multiples of
    [2^-1074]. *)
Definition exponent (q : Q) : Z := Z.max (-1074) (floor_log2 q - 52).

(** The multiple of [2^e] nearest to [q], a tie going to the even
    multiple. *)
Definition round_at (e : Z) (q : Q) : Q :=
  (inject_Z (rne (q / pow2 e)) * pow2 e)%Q.

(** The binary64 float nearest to [q], a tie going to the even significand:
    the rounding of the arithmetic of JavaScript.  A float has no magnitude
    of [2^1024] or more; a [q] that rounds so far overflows to an infinity
    in JavaScript and is outside of this model. *)
Definition round64 (q : Q) : Q :=
  match (q ?= 0)%Q with
  | Eq => 0%Q
  | Gt => round_at (exponent q) q
  | Lt => (- round_at (exponent (- q)) (- q))%Q
  end.

(** [x * y] *)
Definition times (x y : number) : number := round64 (x * y).

(** The rational that a finite float of the IEEE 754 specification of the
    Standard Library denotes. *)
Definition SF2Q (f : SpecFloat.spec_float) : Q :=
  match f with
  | SpecFloat.S754_finite s m e =>
      ((if s then - inject_Z (Zpos m) else inject_Z (Zpos m)) * pow2 e)%Q
  | _ => 0%Q
  end.

(** The binary64 product of that specification. *)
Definition SFmul64 (x y : SpecFloat.spec_float) : SpecFloat.spec_float :=
  SpecFloat.SFmul 53 1024 x y.

Inductive value : Type :=
| VUndefined
| VNull
| VBool (b : bool)
| VNum (n : number)
| VStr (s : string)
| VObject (fields : list (string * value)).

(** [!!v] of JavaScript. *)
Definition truthy (v : value) : bool :=
  match v with
  | VUndefined | VNull => false
  | VBool b => b
  | VNum n => negb (Qeq_bool n 0)
  | VStr s => negb (String.eqb s "")
  | VObject _ => true
  end.

(** [a ?? b] of JavaScript. *)
Definition nullish (a b : value) : value :=
  match a with
  | VUndefined | VNull => b
  | _ => a
  end.

(** A style object: the keys it owns and their values.  [o.k] on a key
    that is missing is [undefined]. *)
Abbreviation Style := (gmap string value).

Definition get (k : string) (o : Style) : value :=
  match o !! k with
  | Some v => v
  | None => VUndefined
  end.

(** [{...a, ...b}]: the keys of both, [b] winning where both own a key. *)
Definition spread (a b : Style) : Style := b ∪ a.

(** [style || {}] and [style?.k] for a style that may be missing. *)
Definition orEmpty (style : option Style) : Style :=
  match style with
  | Some s => s
  | None => ∅
  end.

Definition getOpt (k : string) (style : option Style) : value :=
  match style with
  | Some s => get k s
  | None => VUndefined
  end.

(** ** Exceptions *)

Inductive exn : Type :=
| TypeError (message : string)
| Error (message : string)
| ColorParseError (input : value).

Inductive outcome (A : Type) : Type :=
| Ret (a : A)
| Throw (e : exn).

Arguments Ret {A} a.
Arguments Throw {A} e.

Definition bind {A B} (m : outcome A) (k : A -> outcome B) : outcome B :=
  match m with
  | Ret a => k a
  | Throw e => Throw e
  end.

Notation "'do' x <- m ; k" := (bind m (fun x => k))
  (at level 10, x name, m at level 100, k at level 200).

(** [l.map(f)] where [f] may throw: the first exception ends the walk. *)
Definition mapM {A B} (f : A -> outcome B) : list A -> outcome (list B) :=
  fix go (l : list A) : outcome (list B) :=
    match l with
    | [] => Ret []
    | a :: l' => do b <- f a; do bs <- go l'; Ret (b :: bs)
    end.

(** [l.reduce(cb, init)] where [cb] may throw. *)
Definition reduce {A E} (cb : A -> E -> outcome A) : list E -> A -> outcome A :=
  fix go (l : list E) (acc : A) : outcome A :=
    match l with
    | [] => Ret acc
    | e :: l' => do acc' <- cb acc e; go l' acc'
    end.

(** ** Strings *)

Definition dquote : string := String (ascii_of_nat 34) "".

Definition isDigit (c : ascii) : bool :=
  let n := nat_of_ascii c in (48 <=? n)%nat && (n <=? 57)%nat.

Definition isHexDigit (c : ascii) : bool :=
  let n := nat_of_ascii c in
  ((48 <=? n)%nat && (n <=? 57)%nat) ||
  ((65 <=? n)%nat && (n <=? 70)%nat) ||
  ((97 <=? n)%nat && (n <=? 102)%nat).

Definition isLower (c : ascii) : bool :=
  let n := nat_of_ascii c in (97 <=? n)%nat && (n <=? 122)%nat.

Definition upcase (c : ascii) : ascii :=
  if isLower c then ascii_of_nat (nat_of_ascii c - 32) else c.

(** [s.toUpperCase()], on ASCII. *)
Fixpoint toUpperCase (s : string) : string :=
  match s with
  | EmptyString => EmptyString
  | String c s' => String (upcase c) (toUpperCase s')
  end.

(** [s.substring(n)]. *)
Fixpoint substring (n : nat) (s : string) : string :=
  match n, s with
  | O, _ => s
  | S n', String _ s' => substring n' s'
  | S _, EmptyString => EmptyString
  end.

Fixpoint allChars (p : ascii -> bool) (s : string) : bool :=
  match s with
  | EmptyString => true
  | String c s' => p c && allChars p s'
  end.

(** What [/^\d+%$/] accepts: one digit or more, then a percent sign. *)
Definition percentage (s : string) : Prop :=
  exists ds : string, s = ds +:+ "%" /\ ds <> "" /\ allChars isDigit ds = true.

(** ** Colors *)

(** [Math.round]: the nearest integer, a tie going up.  The result is exact
    in binary64: every float of magnitude [2^52] or more is an integer. *)
Definition Math_round (x : Q) : Z := Qfloor (x + (1 # 2)).

(** [100 - Math.round(a * 100)], the transparency of the opacity [a]; the
    difference of two integers of this size is exact. *)
Definition transparency (a : Q) : Z := 100 - Math_round (times a 100%Q).

(** What the npm package [color] gives for a parsed color: [hex()] is the
    opaque color as [#RRGGBB], [alpha()] the opacity, a float between [0]
    and [1]. *)
Record ColorT : Type := mkColor { hex : string; alpha : number }.

Definition HexColor := string.

Record ComplexColor : Type := mkComplexColor {
  type : string;
  color : HexColor;
  cc_alpha : number
}.

Inductive HexOrComplexColor : Type :=
| Hex (h : HexColor)
| Complex (c : ComplexColor).

(** [hex()] is a hash sign and six hexadecimal digits. *)
Definition hex_wf (c : ColorT) : Prop :=
  exists h, hex c = String "#" h /\ String.length h = 6%nat /\ allChars isHexDigit h = true.

Definition isUpperHex (c : ascii) : bool := isHexDigit c && negb (isLower c).

(** ** React children *)

(** The values that React drops from a list of children. *)
Inductive noise : Type :=
| NNull
| NUndefined
| NBool (b : bool).

(** A [children] value whose real nodes are of type [E]: one node, an array
    of children (arrays nest), or noise. *)
Inductive Children (E : Type) : Type :=
| ChNode (e : E)
| ChArray (l : list (Children E))
| ChNoise (v : noise).

Arguments ChNode {E} e.
Arguments ChArray {E} l.
Arguments ChNoise {E} v.

(** Modelled from the spec: [flattenChildren] of [./util], which src/ does
    not hold.  "Given a heterogeneous child value (single node, array,
    nested arrays, null/undefined/boolean noise), returns a flat ordered
    list of real element nodes." *)
Fixpoint flattenChildren {E} (c : Children E) : list E :=
  match c with
  | ChNode e => [e]
  | ChArray l => concat (map flattenChildren l)
  | ChNoise _ => []
  end.

(** ** Text content *)

(** A key of an object literal: missing, holding [undefined], or holding a
    value. *)
Inductive field (A : Type) : Type :=
| NoKey
| Undefined
| Defined (a : A).

Arguments NoKey {A}.
Arguments Undefined {A}.
Arguments Defined {A} a.

(** [{k: v}] for a variable [v] that may be [undefined]. *)
Definition ofOption {A} (v : option A) : field A :=
  match v with
  | Some a => Defined a
  | None => Undefined
  end.

(** [{k: dflt, ...own}] read at [k]. *)
Definition override {A} (dflt own : field A) : field A :=
  match own with
  | NoKey => dflt
  | _ => own
  end.

Record TextLinkProps : Type := mkTextLinkProps {
  tl_children : string;
  tl_style : option Style;
  tl_rtlMode : option bool;
  tl_lang : option string;
  tl_url : option value;       (* [None]: no key [url] in the props *)
  tl_slide : value;
  tl_tooltip : value
}.

(** The props of a [text-bullet] element but for [children], which is an
    argument of [TextBullet] below. *)
Record TextBulletProps : Type := mkTextBulletProps {
  tb_style : option Style;
  tb_rtlMode : option bool;
  tb_lang : option string;
  tb_bulletProps : gmap string value   (* the other props *)
}.

(** [TextChild]: a node, an array of [TextChild], or (outside the declared
    type) noise.  A node is what [flattenChildren] leaves: a string, a
    number, a [text-link] element or a [text-bullet] element.  This is
    [Children TextNode], declared with [TextNode] so that [normalizeText]
    can recurse into the children of a bullet. *)
Inductive TextChild : Type :=
| TNode (e : TextNode)
| TArray (l : list TextChild)
| TNoise (v : noise)
with TextNode : Type :=
| TString (s : string)
| TNumber (n : number)
| TextLink (props : TextLinkProps)
| TextBullet (children : TextChild) (props : TextBulletProps).

Fixpoint asChildren (t : TextChild) : Children TextNode :=
  match t with
  | TNode e => ChNode e
  | TArray l => ChArray (map asChildren l)
  | TNoise v => ChNoise v
  end.

(** [flattenChildren(t).reduce(cb, init)] in one walk of [t], so that the
    callback may recurse into the nodes of [t]; [flattenChildren_reduce_spec]
    below shows that it is [reduce cb (flattenChildren (asChildren t)) init]. *)
Definition flattenChildren_reduce {A} (cb : A -> TextNode -> outcome A)
  : TextChild -> A -> outcome A :=
  fix go (t : TextChild) (acc : A) : outcome A :=
    match t with
    | TNode e => cb acc e
    | TArray l =>
        (fix goList (l : list TextChild) (acc : A) : outcome A :=
           match l with
           | [] => Ret acc
           | t' :: l' => do acc' <- go t' acc; goList l' acc'
           end) l acc
    | TNoise _ => Ret acc
    end.

Definition notBullet (e : TextNode) : bool :=
  match e with
  | TextBullet _ _ => false
  | _ => true
  end.

Definition isValidElement (el : TextNode) : bool :=
  match el with
  | TextLink _ | TextBullet _ _ => true
  | TString _ | TNumber _ => false
  end.

Inductive Link : Type :=
| LinkUrl (url : value) (tooltip : value)
| LinkSlide (slide : value) (tooltip : value).

Inductive Bullet : Type :=
| BulletTrue
| BulletOptions (options : gmap string value).

Record InternalTextPart : Type := mkTextPart {
  text : string;
  style : Style;
  rtlMode : field bool;
  lang : field string;
  link : field Link;
  bullet : field Bullet;
  breakLine : field bool
}.

(** [{ text, style: {} }] *)
Definition plainPart (s : string) : InternalTextPart :=
  {| text := s; style := ∅; rtlMode := NoKey; lang := NoKey; link := NoKey;
     bullet := NoKey; breakLine := NoKey |}.

(** [l.map((x, index) => f(x, index))], the first index being [index]. *)
Fixpoint mapi_from {A B} (f : A -> nat -> B) (l : list A) (index : nat) : list B :=
  match l with
  | [] => []
  | a :: l' => f a index :: mapi_from f l' (S index)
  end.

Definition mapi {A B} (f : A -> nat -> B) (l : list A) : list B :=
  mapi_from f l 0%nat.

Definition invalid_text_child : exn :=
  TypeError "Invalid TextChild found; only strings/numbers/arrays of them are accepted".

(** ** Nodes *)

(** Modelled from the spec: the type tags [NodeTypes] of [./nodes], which
    src/ does not hold.  "A type tag drawn from a closed enumeration
    {presentation, slide, master-slide, text, image, shape, table,
    table-cell, line, text-link, text-bullet}." *)
Inductive NodeTypes : Type :=
| PRESENTATION
| SLIDE
| MASTER_SLIDE
| TEXT
| IMAGE
| SHAPE
| TABLE
| TABLE_CELL
| LINE
| TEXT_LINK
| TEXT_BULLET.

#[global] Instance NodeTypes_eq_dec : EqDecision NodeTypes.
Proof. solve_decision. Defined.

Definition tagOf (t : NodeTypes) : string :=
  match t with
  | PRESENTATION => "presentation"
  | SLIDE => "slide"
  | MASTER_SLIDE => "master-slide"
  | TEXT => "text"
  | IMAGE => "image"
  | SHAPE => "shape"
  | TABLE => "table"
  | TABLE_CELL => "table-cell"
  | LINE => "line"
  | TEXT_LINK => "text-link"
  | TEXT_BULLET => "text-bullet"
  end.

Inductive InternalImageSrc : Type :=
| SrcData (data : string)
| SrcPath (path : string).

(** The props of the visual elements, over the type [N] of the elements
    themselves (the cells of a table are elements). *)
Record VisualProps (N : Type) : Type := mkVisualProps {
  v_style : option Style;
  v_children : TextChild;            (* [TNoise NUndefined] when missing *)
  v_x1 : value;
  v_y1 : value;
  v_x2 : value;
  v_y2 : value;
  v_colSpan : value;
  v_rowSpan : value;
  v_src : string + InternalImageSrc;
  v_type : value;
  v_rows : list (list (string + N))
}.

Arguments mkVisualProps {N}.
Arguments v_style {N}.
Arguments v_children {N}.
Arguments v_x1 {N}.
Arguments v_y1 {N}.
Arguments v_x2 {N}.
Arguments v_y2 {N}.
Arguments v_colSpan {N}.
Arguments v_rowSpan {N}.
Arguments v_src {N}.
Arguments v_type {N}.
Arguments v_rows {N}.

(** [React.ReactElement<VisualProps>] *)
Inductive Node : Type :=
| Element (type : NodeTypes) (props : VisualProps Node).

Definition nodeType (node : Node) : NodeTypes :=
  match node with Element t _ => t end.

Definition nodeProps (node : Node) : VisualProps Node :=
  match node with Element _ p => p end.

(** Modelled from the spec: the predicates [isLine], [isText], ... of
    [./nodes], which src/ does not hold.  "Dispatches on the node's declared
    kind (a closed, mutually exclusive set recognized by type-tag
    predicates)." *)
Definition isKind (k : NodeTypes) (node : Node) : bool :=
  bool_decide (nodeType node = k).

Record Coordinates : Type := mkCoordinates {
  x : value;
  y : value;
  w : value;
  h : value
}.

(** [{...style, ...normalizedCoordinates}] where the style is open. *)
Definition spreadCoordinates (style : Style) (c : Coordinates) : Style :=
  <["h" := h c]> (<["w" := w c]> (<["y" := y c]> (<["x" := x c]> style))).

(** [InternalSlideObject | null]: the variants by [kind], and [None] for
    [null].  A text carries [colSpan] and [rowSpan] when it comes from a
    table cell element. *)
Inductive InternalSlideObject : Type :=
| InternalText (text : list InternalTextPart) (style : Style)
    (span : option (value * value))
| InternalImage (src : InternalImageSrc) (coordinates : Coordinates)
    (sizing : value)
| InternalShape (type : value) (text : option (list InternalTextPart))
    (coordinates : Coordinates) (backgroundColor : option HexOrComplexColor)
    (borderColor : option HexColor) (borderWidth : value)
| InternalTable (rows : list (list (option InternalSlideObject)))
    (coordinates : Coordinates) (borderColor : option HexColor)
    (borderWidth : value) (margin : value)
| InternalLine (x1 y1 x2 y2 : value) (color : option HexColor) (width : value).

(** [x !== null] *)
Definition isPresent {A} (x : option A) : bool :=
  match x with
  | Some _ => true
  | None => false
  end.

(** [l.filter(isPresent)], whose result TypeScript narrows to [T[]];
    [filterPresent_spec] below shows that it is [List.filter isPresent l]. *)
Fixpoint filterPresent {A} (l : list (option A)) : list A :=
  match l with
  | [] => []
  | x :: l' =>
      match x with
      | Some a => a :: filterPresent l'
      | None => filterPresent l'
      end
  end.

(** The props of [slide] and [master-slide] elements. *)
Record SlideProps : Type := mkSlideProps {
  name : string;
  masterName : value;
  hidden : value;
  s_style : option Style;
  notes : value;
  s_children : Children Node
}.

Record SlideElement : Type := mkSlideElement {
  s_type : NodeTypes;
  s_props : SlideProps
}.

Record PresentationProps : Type := mkPresentationProps {
  layout : value;
  author : value;
  company : value;
  revision : value;
  subject : value;
  title : value;
  p_children : Children SlideElement
}.

(** [if (children)] on a [children] prop of elements. *)
Definition hasChildren {E} (c : Children E) : bool :=
  match c with
  | ChNode _ | ChArray _ => true
  | ChNoise (NBool b) => b
  | ChNoise _ => false
  end.

Record InternalSlide : Type := mkInternalSlide {
  is_masterName : value;
  is_objects : list InternalSlideObject;
  is_backgroundColor : option HexOrComplexColor;
  is_backgroundImage : value;
  is_hidden : value;
  is_notes : value
}.

Record InternalMasterSlide : Type := mkInternalMasterSlide {
  ms_name : string;
  ms_objects : list InternalSlideObject;
  ms_backgroundColor : option HexOrComplexColor;
  ms_backgroundImage : value
}.

Record InternalPresentation : Type := mkInternalPresentation {
  slides : list InternalSlide;
  masterSlides : gmap string InternalMasterSlide;
  ip_layout : value;
  ip_author : value;
  ip_company : value;
  ip_revision : value;
  ip_subject : value;
  ip_title : value
}.

(** [Object.fromEntries(entries)]: the entries are written in order, a
    later one replacing an earlier one of the same key. *)
Definition fromEntries {A} (entries : list (string * A)) : gmap string A :=
  fold_left (fun o kv => <[kv.1 := kv.2]> o) entries ∅.

Definition DEFAULT_FONT_SIZE : number := 18%Q.
Definition DEFAULT_FONT_FACE : string := "Arial".

(** ** Instances for the examples *)

(** A fragment of the parser of the package [color]. *)
Definition sampleColor (v : value) : option ColorT :=
  match v with
  | VStr s =>
      if String.eqb s "red" then Some (mkColor "#FF0000" 1%Q)
      else if String.eqb s "#abcdef" then Some (mkColor "#ABCDEF" 1%Q)
      else if String.eqb s "rgba(0,0,0,0.25)" then Some (mkColor "#000000" (1 # 4))
      else if String.eqb s "rgba(0,0,0,0.125)" then Some (mkColor "#000000" (1 # 8))
      else if String.eqb s "rgba(0,0,0,0.015)"
      then Some (mkColor "#000000" (round64 (3 # 200)))
      else None
  | _ => None
  end.

(** [Number.prototype.toString] on whole numbers; the examples use no
    other number. *)
Definition sampleToString (n : number) : string :=
  if (Qden n =? 1)%positive then pretty (Qnum n)
  else pretty (Qnum n) +:+ "/" +:+ pretty (Zpos (Qden n)).

(** One reading of the name [isReactElementOrElementArray]: an element, or
    an array of elements. *)
Definition elementOrElements (t : TextChild) : bool :=
  match t with
  | TNode e => isValidElement e
  | TArray l =>
      forallb (fun t' => match t' with TNode e => isValidElement e | _ => false end) l
  | TNoise _ => false
  end.

(** Another one: an element, or an array that holds an element at any
    depth. *)
Fixpoint holdsElement (t : TextChild) : bool :=
  match t with
  | TNode e => isValidElement e
  | TArray l => existsb holdsElement l
  | TNoise _ => false
  end.

(** ** Inputs of the examples *)

(** ["a"] and a nested array: [["a", ["b", "c"]]]. *)
Definition abc : list TextChild :=
  [TNode (TString "a"); TArray [TNode (TString "b"); TNode (TString "c")]].

Definition exampleLink : TextLinkProps :=
  {| tl_children := "x"; tl_style := None; tl_rtlMode := None; tl_lang := None;
     tl_url := Some (VStr "https://example.com"); tl_slide := VUndefined;
     tl_tooltip := VUndefined |}.

Definition plainBullet : TextBulletProps :=
  {| tb_style := None; tb_rtlMode := None; tb_lang := None; tb_bulletProps := ∅ |}.

(** [<Text.Bullet indent={10}>] *)
Definition indentedBullet : TextBulletProps :=
  {| tb_style := None; tb_rtlMode := None; tb_lang := None;
     tb_bulletProps := {[ "indent" := VNum 10%Q ]} |}.

(** [<Text.Bullet style={{color: "red"}}>] *)
Definition redBullet : TextBulletProps :=
  {| tb_style := Some {[ "color" := VStr "red" ]}; tb_rtlMode := None;
     tb_lang := None; tb_bulletProps := ∅ |}.

(** [<Text.Bullet rtlMode lang="he">] *)
Definition rtlBullet : TextBulletProps :=
  {| tb_style := None; tb_rtlMode := Some true; tb_lang := Some "he";
     tb_bulletProps := ∅ |}.

(** A bullet around a string and a link. *)
Definition bulletOfTwo : TextChild :=
  TNode (TextBullet (TArray [TNode (TString "a"); TNode (TextLink exampleLink)])
           indentedBullet).

(** A bullet with [indent] around two plain bullets. *)
Definition nestedBullets : TextChild :=
  TNode (TextBullet
           (TArray [TNode (TextBullet (TNode (TString "a")) plainBullet);
                    TNode (TextBullet (TNode (TString "b")) plainBullet)])
           indentedBullet).

Definition bareProps : VisualProps Node :=
  {| v_style := None; v_children := TNoise NUndefined;
     v_x1 := VUndefined; v_y1 := VUndefined; v_x2 := VUndefined;
     v_y2 := VUndefined; v_colSpan := VUndefined; v_rowSpan := VUndefined;
     v_src := inl ""; v_type := VUndefined; v_rows := [] |}.

Definition withStyle (style : Style) (props : VisualProps Node) : VisualProps Node :=
  {| v_style := Some style; v_children := v_children props;
     v_x1 := v_x1 props; v_y1 := v_y1 props; v_x2 := v_x2 props;
     v_y2 := v_y2 props; v_colSpan := v_colSpan props;
     v_rowSpan := v_rowSpan props; v_src := v_src props;
     v_type := v_type props; v_rows := v_rows props |}.

Definition withRows (rows : list (list (string + Node))) (props : VisualProps Node)
  : VisualProps Node :=
  {| v_style := v_style props; v_children := v_children props;
     v_x1 := v_x1 props; v_y1 := v_y1 props; v_x2 := v_x2 props;
     v_y2 := v_y2 props; v_colSpan := v_colSpan props;
     v_rowSpan := v_rowSpan props; v_src := v_src props;
     v_type := v_type props; v_rows := rows |}.

Definition withChildren (children : TextChild) (props : VisualProps Node)
  : VisualProps Node :=
  {| v_style := v_style props; v_children := children;
     v_x1 := v_x1 props; v_y1 := v_y1 props; v_x2 := v_x2 props;
     v_y2 := v_y2 props; v_colSpan := v_colSpan props;
     v_rowSpan := v_rowSpan props; v_src := v_src props;
     v_type := v_type props; v_rows := v_rows props |}.

(** [<Line x1={0} y1={0} x2={1} y2={1} />], without a style. *)
Definition lineWithoutStyle : Node :=
  Element LINE
    {| v_style := None; v_children := TNoise NUndefined;
       v_x1 := VNum 0%Q; v_y1 := VNum 0%Q; v_x2 := VNum 1%Q; v_y2 := VNum 1%Q;
       v_colSpan := VUndefined; v_rowSpan := VUndefined;
       v_src := inl ""; v_type := VUndefined; v_rows := [] |}.

Definition exampleText : Node :=
  Element TEXT (withChildren (TNode (TString "hello"))
                  (withStyle {[ "x" := VStr "10%" ]} bareProps)).

Definition exampleCell : Node :=
  Element TABLE_CELL (withChildren (TNode (TString "c"))
                        (withStyle ∅ bareProps)).

(** A table of two rows: a string and a cell element, then a string. *)
Definition exampleTable : Node :=
  Element TABLE
    (withRows [[inl "a"; inr exampleCell]; [inl "b"]] (withStyle ∅ bareProps)).

Definition exampleObjects : Children Node :=
  ChArray [ChNode exampleText; ChNoise NNull; ChArray [ChNode exampleTable]].

Definition slideProps (name' : string) (style : option Style)
    (children : Children Node) : SlideProps :=
  {| name := name'; masterName := VUndefined; hidden := VUndefined;
     s_style := style; notes := VUndefined; s_children := children |}.

(** A slide, a master slide [m], an element of another type, and a second
    master slide [m]. *)
Definition examplePresentation : PresentationProps :=
  {| layout := VUndefined; author := VUndefined; company := VUndefined;
     revision := VUndefined; subject := VUndefined; title := VUndefined;
     p_children :=
       ChArray [
         ChNode (mkSlideElement SLIDE (slideProps "" None exampleObjects));
         ChNode (mkSlideElement MASTER_SLIDE
                   (slideProps "m" (Some {[ "backgroundColor" := VStr "red" ]})
                      (ChNoise NUndefined)));
         ChNode (mkSlideElement TEXT (slideProps "" None (ChNoise NUndefined)));
         ChNode (mkSlideElement MASTER_SLIDE
                   (slideProps "m" None (ChNode exampleText))) ] |}.

(** A bullet of the color red around a link and a string. *)
Definition redBulletOfTwo : TextChild :=
  TNode (TextBullet (TArray [TNode (TextLink exampleLink); TNode (TString "b")])
           redBullet).

(** A string and a link, no bullet. *)
Definition stringAndLink : TextChild :=
  TArray [TNode (TString "a"); TArray [TNode (TextLink exampleLink)]].

(** A node of type [slide] where a visual node is expected, with a width
    that is no position. *)
Definition wideSlide : Node :=
  Element SLIDE (withStyle {[ "w" := VStr "wide" ]} bareProps).

(** A table whose second cell is an element without a style. *)
Definition brokenTable : Node :=
  Element TABLE
    (withRows [[inl "a"; inr (Element TABLE_CELL bareProps)]]
       (withStyle ∅ bareProps)).

(** A shape whose children are the empty array. *)
Definition emptyShape : Node :=
  Element SHAPE (withChildren (TArray []) (withStyle ∅ bareProps)).

(** Two master slides of two names, and a slide. *)
Definition twoMasters : PresentationProps :=
  {| layout := VUndefined; author := VUndefined; company := VUndefined;
     revision := VUndefined; subject := VUndefined; title := VUndefined;
     p_children :=
       ChArray [
         ChNode (mkSlideElement MASTER_SLIDE
                   (slideProps "m" None (ChNoise NUndefined)));
         ChNode (mkSlideElement SLIDE (slideProps "" None (ChNoise NUndefined)));
         ChNode (mkSlideElement MASTER_SLIDE
                   (slideProps "n" None (ChNoise NUndefined))) ] |}.

(** ** The normalizer *)

Section Normalizer.

(** The constructor of the package [color]; [None] when it throws. *)
Variable Color : value -> option ColorT.

(** [Number.prototype.toString]. *)
Variable Number_toString : number -> string.

Definition parseColor (colorString : value) : outcome ColorT :=
  match Color colorString with
  | Some clr => Ret clr
  | None => Throw (ColorParseError colorString)
  end.

Definition normalizeHexColor (colorString : value) : outcome HexColor :=
  do clr <- parseColor colorString;
  Ret (toUpperCase (substring 1 (hex clr))).

Definition normalizeHexOrComplexColor (colorString : value)
  : outcome HexOrComplexColor :=
  do clr <- parseColor colorString;
  let hexColor := toUpperCase (substring 1 (hex clr)) in
  if Qeq_bool (alpha clr) 1 then Ret (Hex hexColor)
  else Ret (Complex {|
    type := "solid";
    color := hexColor;
    cc_alpha := inject_Z (100 - Math_round (times (alpha clr) 100%Q))
  |}).

(** ** Coordinates *)

(** [\d*%$] *)
Fixpoint digits_percent_end (s : string) : bool :=
  match s with
  | EmptyString => false
  | String c rest =>
      if isDigit c then digits_percent_end rest
      else Ascii.eqb c "%" && String.eqb rest ""
  end.

(** [PERCENTAGE_REGEXP.test(x)] for [/^\d+%$/]. *)
Definition PERCENTAGE_REGEXP_test (x : string) : bool :=
  match x with
  | EmptyString => false
  | String c rest => isDigit c && digits_percent_end rest
  end.

Definition invalid_position (x : string) : exn :=
  TypeError (dquote +:+ x +:+ dquote +:+
    " is invalid position; string positions must be of format '[0-9]+%'").

Definition normalizeCoordinate (x : value) (_default : number) : outcome value :=
  match x with
  | VStr s =>
      if negb (PERCENTAGE_REGEXP_test s) then Throw (invalid_position s)
      else Ret (VStr s)
  | VNum n => Ret (VNum n)
  | _ => Ret (VNum _default)
  end.

(** ** Text *)

(** The type guard [isReactElementOrElementArray] of [./util], which src/
    does not hold. *)
Variable isReactElementOrElementArray : TextChild -> bool.

(** [style?.color ? normalizeHexColor(style.color) : undefined] *)
Definition normalizeStyleColor (style : option Style) : outcome value :=
  if truthy (getOpt "color" style)
  then do c <- normalizeHexColor (getOpt "color" style); Ret (VStr c)
  else Ret VUndefined.

(** The parts of one bullet: the callback of [normalizedChildren.map]. *)
Definition bulletPart (rtlMode' : option bool) (lang' : option string)
    (bullet' : Bullet) (parentStyle : Style) (length : nat)
    (childPart : InternalTextPart) (index : nat) : InternalTextPart :=
  {| rtlMode := override (ofOption rtlMode') (rtlMode childPart);
     lang := override (ofOption lang') (lang childPart);
     bullet := override (if (index =? 0)%nat then Defined bullet' else Undefined)
                        (bullet childPart);
     text := text childPart;
     link := link childPart;
     style := spread parentStyle (style childPart);
     breakLine := Defined (length <=? index + 1)%nat |}.

(** [Object.keys(bulletProps).length ? bulletProps : true] *)
Definition bulletOf (bulletProps : gmap string value) : Bullet :=
  if (size bulletProps =? 0)%nat then BulletTrue else BulletOptions bulletProps.

Definition linkOf (props : TextLinkProps) : option Link :=
  match tl_url props with
  | Some url => Some (LinkUrl url (tl_tooltip props))
  | None =>
      if truthy (tl_slide props)
      then Some (LinkSlide (tl_slide props) (tl_tooltip props))
      else None
  end.

Fixpoint normalizeText (t : TextChild) : outcome (list InternalTextPart) :=
  if isReactElementOrElementArray t then
    flattenChildren_reduce
      (fun (textParts : list InternalTextPart) (el : TextNode) =>
         match el with
         | TextBullet children props =>
             let bullet' := bulletOf (tb_bulletProps props) in
             do normalizedChildren <- normalizeText children;
             do normalizedParentColor <- normalizeStyleColor (tb_style props);
             let parentStyle :=
               <["color" := normalizedParentColor]> (orEmpty (tb_style props)) in
             let childParts :=
               mapi (bulletPart (tb_rtlMode props) (tb_lang props) bullet'
                       parentStyle (List.length normalizedChildren))
                    normalizedChildren in
             Ret (textParts ++ childParts)
         | TextLink props =>
             let link' := linkOf props in
             do c <- normalizeStyleColor (tl_style props);
             Ret (textParts ++ [
               {| text := tl_children props;
                  rtlMode := ofOption (tl_rtlMode props);
                  lang := ofOption (tl_lang props);
                  link := ofOption link';
                  style := <["color" := c]> (orEmpty (tl_style props));
                  bullet := NoKey;
                  breakLine := NoKey |} ])
         | TString s => Ret (textParts ++ [plainPart s])
         | TNumber n => Ret (textParts ++ [plainPart (Number_toString n)])
         end)
      t []
  else
    match t with
    | TArray l =>
        reduce (fun prev cur => do r <- normalizeText cur; Ret (prev ++ r)) l []
    | TNode (TString s) => Ret [plainPart s]
    | TNode (TNumber n) => Ret [plainPart (Number_toString n)]
    | _ => Throw invalid_text_child
    end.

(** The callback of the [reduce] in [normalizeText], by name. *)
Definition textCallback (textParts : list InternalTextPart) (el : TextNode)
  : outcome (list InternalTextPart) :=
  match el with
  | TextBullet children props =>
      let bullet' := bulletOf (tb_bulletProps props) in
      do normalizedChildren <- normalizeText children;
      do normalizedParentColor <- normalizeStyleColor (tb_style props);
      let parentStyle :=
        <["color" := normalizedParentColor]> (orEmpty (tb_style props)) in
      let childParts :=
        mapi (bulletPart (tb_rtlMode props) (tb_lang props) bullet'
                parentStyle (List.length normalizedChildren))
             normalizedChildren in
      Ret (textParts ++ childParts)
  | TextLink props =>
      let link' := linkOf props in
      do c <- normalizeStyleColor (tl_style props);
      Ret (textParts ++ [
        {| text := tl_children props;
           rtlMode := ofOption (tl_rtlMode props);
           lang := ofOption (tl_lang props);
           link := ofOption link';
           style := <["color" := c]> (orEmpty (tl_style props));
           bullet := NoKey;
           breakLine := NoKey |} ])
  | TString s => Ret (textParts ++ [plainPart s])
  | TNumber n => Ret (textParts ++ [plainPart (Number_toString n)])
  end.

(** No noise among the members of the arrays of [t], as the type
    [TextChild] of the source has it. *)
Fixpoint noNoise (t : TextChild) : bool :=
  match t with
  | TNode _ => true
  | TArray l => forallb noNoise l
  | TNoise _ => false
  end.

(** No [text-bullet] element among the nodes of [t]. *)
Fixpoint noBullet (t : TextChild) : bool :=
  match t with
  | TNode (TextBullet _ _) => false
  | TNode _ => true
  | TArray l => forallb noBullet l
  | TNoise _ => true
  end.

(** ** Slide objects *)

Definition normalizeImageSrc (src : string + InternalImageSrc) : InternalImageSrc :=
  match src with
  | inl s => SrcPath s
  | inr src' => src'
  end.

(** [c ? normalizeHexColor(c) : null] *)
Definition normalizeColorOrNull (c : value) : outcome (option HexColor) :=
  if truthy c then do hx <- normalizeHexColor c; Ret (Some hx) else Ret None.

(** [c ? normalizeHexOrComplexColor(c) : null] *)
Definition normalizeComplexOrNull (c : value)
  : outcome (option HexOrComplexColor) :=
  if truthy c then do hx <- normalizeHexOrComplexColor c; Ret (Some hx)
  else Ret None.

Definition colorValue (c : option HexColor) : value :=
  match c with
  | Some hx => VStr hx
  | None => VNull
  end.

(** The text and the style of a [text] or [table-cell] element, [style]
    being [node.props.style]. *)
Definition normalizeTextType (props : VisualProps Node) (style : Style)
    (normalizedCoordinates : Coordinates)
  : outcome (list InternalTextPart * Style) :=
  do text <- match v_children props with
             | TNoise NUndefined => Ret []
             | children => normalizeText children
             end;
  do color <- normalizeColorOrNull (get "color" style);
  Ret (text,
       <["fontSize" := nullish (get "fontSize" style) (VNum DEFAULT_FONT_SIZE)]>
       (<["fontFace" := nullish (get "fontFace" style) (VStr DEFAULT_FONT_FACE)]>
       (<["color" := colorValue color]>
       (spreadCoordinates style normalizedCoordinates)))).

Definition missing_style (t : NodeTypes) : exn :=
  TypeError ("A " +:+ tagOf t +:+ " object is missing style attribute").

(** The cell of a table that is a bare string. *)
Definition stringCell (cell : string) : InternalSlideObject :=
  InternalText [plainPart cell]
    {[ "x" := VNum 0%Q; "y" := VNum 0%Q; "w" := VNum 0%Q; "h" := VNum 0%Q;
       "color" := VNull ]}
    None.

(** The cell of a table, a bare string or an element, and what it
    normalizes to. *)
Definition normalizesTo
    (normalize : Node -> outcome (option InternalSlideObject))
    (cell : string + Node) (out : option InternalSlideObject) : Prop :=
  match cell with
  | inl s =>
      out = Some (InternalText
                    [ {| text := s; style := ∅; rtlMode := NoKey; lang := NoKey;
                         link := NoKey; bullet := NoKey; breakLine := NoKey |} ]
                    {[ "x" := VNum 0%Q; "y" := VNum 0%Q; "w" := VNum 0%Q;
                       "h" := VNum 0%Q; "color" := VNull ]}
                    None)
  | inr cell' => normalize cell' = Ret out
  end.

Fixpoint normalizeSlideObject (node : Node)
  : outcome (option InternalSlideObject) :=
  match v_style (nodeProps node) with
  | None => Throw (missing_style (nodeType node))
  | Some style =>
    let props := nodeProps node in
    if isKind LINE node then
      do color <- normalizeColorOrNull (get "color" style);
      Ret (Some (InternalLine (v_x1 props) (v_y1 props) (v_x2 props) (v_y2 props)
                   color (nullish (get "width" style) VNull)))
    else
      do nx <- normalizeCoordinate (get "x" style) 0%Q;
      do ny <- normalizeCoordinate (get "y" style) 0%Q;
      do nw <- normalizeCoordinate (get "w" style) 1%Q;
      do nh <- normalizeCoordinate (get "h" style) 1%Q;
      let normalizedCoordinates := {| x := nx; y := ny; w := nw; h := nh |} in
      if isKind TEXT node then
        do ts <- normalizeTextType props style normalizedCoordinates;
        Ret (Some (InternalText ts.1 ts.2 None))
      else if isKind TABLE_CELL node then
        do ts <- normalizeTextType props style normalizedCoordinates;
        Ret (Some (InternalText ts.1 ts.2 (Some (v_colSpan props, v_rowSpan props))))
      else if isKind IMAGE node then
        Ret (Some (InternalImage (normalizeImageSrc (v_src props))
                     normalizedCoordinates (nullish (get "sizing" style) VNull)))
      else if isKind SHAPE node then
        do text <- match v_children props with
                   | TNoise NUndefined => Ret None
                   | children => do ps <- normalizeText children; Ret (Some ps)
                   end;
        do backgroundColor <- normalizeComplexOrNull (get "backgroundColor" style);
        do borderColor <- normalizeColorOrNull (get "borderColor" style);
        Ret (Some (InternalShape (v_type props) text normalizedCoordinates
                     backgroundColor borderColor
                     (nullish (get "borderWidth" style) VNull)))
      else if isKind TABLE node then
        do normalized <-
          mapM (mapM (fun cell : string + Node =>
                        match cell with
                        | inl s => Ret (Some (stringCell s))
                        | inr cell' => normalizeSlideObject cell'
                        end))
               (v_rows props);
        do borderColor <- normalizeColorOrNull (get "borderColor" style);
        Ret (Some (InternalTable normalized normalizedCoordinates borderColor
                     (nullish (get "borderWidth" style) VNull)
                     (nullish (get "margin" style) VNull)))
      else Throw (Error "unknown slide object")
  end.

(** ** Slides and the presentation *)

(** [flattenChildren(children).map(normalizeSlideObject).filter(isPresent)],
    or the empty list when there are no children. *)
Definition normalizeObjects (children : Children Node)
  : outcome (list InternalSlideObject) :=
  if hasChildren children then
    do objects <- mapM normalizeSlideObject (flattenChildren children);
    Ret (filterPresent objects)
  else Ret [].

Definition normalizeSlide (el : SlideElement) : outcome InternalSlide :=
  let props := s_props el in
  do backgroundColor <-
    normalizeComplexOrNull (getOpt "backgroundColor" (s_style props));
  do objects <- normalizeObjects (s_children props);
  Ret {| is_masterName := nullish (masterName props) VNull;
         is_hidden := nullish (hidden props) (VBool false);
         is_backgroundColor := backgroundColor;
         is_backgroundImage := nullish (getOpt "backgroundImage" (s_style props)) VNull;
         is_notes := notes props;
         is_objects := objects |}.

Definition normalizeMasterSlide (el : SlideElement) : outcome InternalMasterSlide :=
  let props := s_props el in
  do backgroundColor <-
    normalizeComplexOrNull (getOpt "backgroundColor" (s_style props));
  do objects <- normalizeObjects (s_children props);
  Ret {| ms_name := name props;
         ms_backgroundColor := backgroundColor;
         ms_backgroundImage := nullish (getOpt "backgroundImage" (s_style props)) VNull;
         ms_objects := objects |}.

Definition hasType (k : NodeTypes) (child : SlideElement) : bool :=
  bool_decide (s_type child = k).

(** The presentation with no other children than its slides and master
    slides. *)
Definition slidesOnly (props : PresentationProps) : PresentationProps :=
  {| layout := layout props;
     author := author props;
     company := company props;
     revision := revision props;
     subject := subject props;
     title := title props;
     p_children :=
       ChArray (map ChNode
         (List.filter (fun child => hasType SLIDE child || hasType MASTER_SLIDE child)
            (flattenChildren (p_children props)))) |}.

Definition normalizeJsx (props : PresentationProps) : outcome InternalPresentation :=
  if hasChildren (p_children props) then
    let children := flattenChildren (p_children props) in
    do slides' <- mapM normalizeSlide (List.filter (hasType SLIDE) children);
    do masterSlides' <-
      mapM normalizeMasterSlide (List.filter (hasType MASTER_SLIDE) children);
    Ret {| ip_layout := nullish (layout props) (VStr "16x9");
           masterSlides :=
             fromEntries (map (fun slide => (ms_name slide, slide)) masterSlides');
           slides := slides';
           ip_author := author props;
           ip_company := company props;
           ip_revision := revision props;
           ip_subject := subject props;
           ip_title := title props |}
  else
    Ret {| ip_layout := nullish (layout props) (VStr "16x9");
           masterSlides := ∅;
           slides := [];
           ip_author := author props;
           ip_company := company props;
           ip_revision := revision props;
           ip_subject := subject props;
           ip_title := title props |}.

(** ** What the properties below speak of *)

(** A canonical position: a number, or a string that [/^\d+%$/] accepts. *)
Definition isPosition (v : value) : bool :=
  match v with
  | VNum _ => true
  | VStr s => PERCENTAGE_REGEXP_test s
  | _ => false
  end.

(** The text and the link of the leaves of a [TextChild], in order: its
    strings, its numbers and its links, also under bullets. *)
Fixpoint leaves (t : TextChild) : list (string * field Link) :=
  match t with
  | TNode e => nodeLeaves e
  | TArray l => concat (map leaves l)
  | TNoise _ => []
  end
with nodeLeaves (e : TextNode) : list (string * field Link) :=
  match e with
  | TString s => [(s, NoKey)]
  | TNumber n => [(Number_toString n, NoKey)]
  | TextLink props => [(tl_children props, ofOption (linkOf props))]
  | TextBullet children _ => leaves children
  end.

Definition signature (parts : list InternalTextPart) : list (string * field Link) :=
  map (fun part => (text part, link part)) parts.

(** Strings, numbers and arrays of them, at any depth. *)
Fixpoint onlyPlain (t : TextChild) : bool :=
  match t with
  | TNode (TString _) | TNode (TNumber _) => true
  | TNode _ => false
  | TArray l => forallb onlyPlain l
  | TNoise _ => false
  end.

(** The color of a style is missing, or falsy, or the parser accepts it. *)
Definition colorParses (style : option Style) : bool :=
  negb (truthy (getOpt "color" style)) ||
  match Color (getOpt "color" style) with
  | Some _ => true
  | None => false
  end.

(** No noise at any depth, under bullets too, and no color that the parser
    rejects. *)
Fixpoint textOk (t : TextChild) : bool :=
  match t with
  | TNode e => nodeOk e
  | TArray l => forallb textOk l
  | TNoise _ => false
  end
with nodeOk (e : TextNode) : bool :=
  match e with
  | TString _ | TNumber _ => true
  | TextLink props => colorParses (tl_style props)
  | TextBullet children props => textOk children && colorParses (tb_style props)
  end.

(** The exceptions of [normalizeText]. *)
Definition textError (e : exn) : Prop :=
  e = invalid_text_child \/ exists v, e = ColorParseError v.

(** The exceptions of [normalizeSlideObject]. *)
Definition objectError (e : exn) : Prop :=
  (exists t, e = missing_style t) \/
  (exists s, PERCENTAGE_REGEXP_test s = false /\ e = invalid_position s) \/
  textError e \/
  e = Error "unknown slide object".

(** The [kind] of a slide object. *)
Definition kind (o : InternalSlideObject) : string :=
  match o with
  | InternalText _ _ _ => "text"
  | InternalImage _ _ _ => "image"
  | InternalShape _ _ _ _ _ _ => "shape"
  | InternalTable _ _ _ _ _ => "table"
  | InternalLine _ _ _ _ _ _ => "line"
  end.

(** The [x], [y], [w] and [h] of the style of a slide object; a line has
    none. *)
Definition positionsOf (o : InternalSlideObject) : option (list value) :=
  match o with
  | InternalText _ st _ => Some [get "x" st; get "y" st; get "w" st; get "h" st]
  | InternalImage _ c _ | InternalShape _ _ c _ _ _ | InternalTable _ c _ _ _ =>
      Some [x c; y c; w c; h c]
  | InternalLine _ _ _ _ _ _ => None
  end.

(** The walk of [l] by [f] ends on the exception [e]: a member throws [e]
    and the members before it return. *)
Definition firstFailure {A B} (f : A -> outcome B) (l : list A) (e : exn) : Prop :=
  exists before a after bs,
    l = before ++ a :: after /\ mapM f before = Ret bs /\ f a = Throw e.

(** The children of a presentation that have the type [k]. *)
Definition childrenOfType (k : NodeTypes) (props : PresentationProps)
  : list SlideElement :=
  List.filter (hasType k) (flattenChildren (p_children props)).


(** ** Properties of the leaves *)

Lemma digits_percent_end_spec (s : string) :
  digits_percent_end s = true <->
  exists ds : string, s = ds +:+ "%" /\ allChars isDigit ds = true.
Proof.
  induction s as [|c rest IH]; simpl.
  - split; [discriminate|]. intros [[|d ds] [H _]]; discriminate.
  - destruct (isDigit c) eqn:Hc.
    + rewrite IH. split.
      * intros (ds & -> & Hds). exists (String c ds). simpl. by rewrite Hc.
      * intros ([|d ds] & Heq & Hds); simpl in *.
        -- injection Heq as -> ->. discriminate.
        -- injection Heq as -> ->. apply andb_prop in Hds as [_ Hds]. eauto.
    + rewrite andb_true_iff, Ascii.eqb_eq, String.eqb_eq. split.
      * intros [-> ->]. by exists "".
      * intros ([|d ds] & Heq & Hds); simpl in *.
        -- by injection Heq as -> ->.
        -- injection Heq as -> ->. rewrite Hc in Hds. discriminate.
Qed.

Lemma PERCENTAGE_REGEXP_test_spec (s : string) :
  PERCENTAGE_REGEXP_test s = true <-> percentage s.
Proof.
  unfold percentage. destruct s as [|c rest]; simpl.
  - split; [discriminate|]. intros ([|d ds] & H & Hne & _); [done|discriminate].
  - rewrite andb_true_iff, digits_percent_end_spec. split.
    + intros (Hc & ds & -> & Hds). exists (String c ds). simpl.
      by rewrite Hc, Hds.
    + intros ([|d ds] & Heq & Hne & Hds); [done|]. simpl in *.
      injection Heq as -> ->. apply andb_prop in Hds as [Hd Hds]. eauto.
Qed.

(** C5: [normalizeCoordinate] returns a number as it is, returns a string
    as it is when [/^\d+%$/] accepts it (digits, then one percent sign) and
    throws the [TypeError] that quotes the string when not (its message is
    a double quote, the string, a double quote and the text
    [ is invalid position; string positions must be of format '[0-9]+%']),
    and returns the
    default for [null] and [undefined]; so [(50, 0)] gives [50],
    [("50%", 0)] gives ["50%"], [(undefined, 7)] gives [7] and [("50", 0)]
    throws. *)
Theorem normalizeCoordinate_spec (_default : number) :
  (forall n, normalizeCoordinate (VNum n) _default = Ret (VNum n)) /\
  (forall s, normalizeCoordinate (VStr s) _default =
             if PERCENTAGE_REGEXP_test s then Ret (VStr s)
             else Throw (TypeError (String (ascii_of_nat 34) s +:+
                    String (ascii_of_nat 34)
                      " is invalid position; string positions must be of format '[0-9]+%'"))) /\
  (forall s, PERCENTAGE_REGEXP_test s = true <-> percentage s) /\
  normalizeCoordinate VNull _default = Ret (VNum _default) /\
  normalizeCoordinate VUndefined _default = Ret (VNum _default) /\
  normalizeCoordinate (VNum 50%Q) 0%Q = Ret (VNum 50%Q) /\
  normalizeCoordinate (VStr "50%") 0%Q = Ret (VStr "50%") /\
  normalizeCoordinate VUndefined 7%Q = Ret (VNum 7%Q) /\
  normalizeCoordinate (VStr "50") 0%Q =
    Throw (TypeError (dquote +:+ "50" +:+ dquote +:+
      " is invalid position; string positions must be of format '[0-9]+%'")).
Proof.
  split; [reflexivity|].
  split; [intros s; unfold normalizeCoordinate;
          by destruct (PERCENTAGE_REGEXP_test s)|].
  split; [exact PERCENTAGE_REGEXP_test_spec|].
  repeat split.
Qed.

Lemma upcase_hex (c : ascii) : isHexDigit c = true -> isUpperHex (upcase c) = true.
Proof.
  destruct c as [[] [] [] [] [] [] [] []]; vm_compute; congruence.
Qed.

Lemma toUpperCase_length (s : string) :
  String.length (toUpperCase s) = String.length s.
Proof. induction s; simpl; congruence. Qed.

Lemma toUpperCase_hex (s : string) :
  allChars isHexDigit s = true -> allChars isUpperHex (toUpperCase s) = true.
Proof.
  induction s as [|c s IH]; simpl; [done|].
  intros [Hc Hs]%andb_prop. by rewrite upcase_hex, IH.
Qed.

Lemma Qfloor_unique (q : Q) (z : Z) :
  (inject_Z z <= q)%Q -> (q < inject_Z (z + 1))%Q -> Qfloor q = z.
Proof.
  intros H1 H2.
  pose proof (Qfloor_le q) as F1. pose proof (Qlt_floor q) as F2.
  assert (z < Qfloor q + 1)%Z by (rewrite Zlt_Qlt; eapply Qle_lt_trans; eauto).
  assert (Qfloor q < z + 1)%Z by (rewrite Zlt_Qlt; eapply Qle_lt_trans; eauto).
  lia.
Qed.

(** ** Properties of the binary64 arithmetic *)

Section Rounding.

Local Open Scope Q_scope.

Lemma pow2_pos e : 0 < pow2 e.
Proof. apply Qpower_0_lt. reflexivity. Qed.

Lemma pow2_plus a b : pow2 (a + b) == pow2 a * pow2 b.
Proof. apply Qpower_plus. discriminate. Qed.

Lemma pow2_le a b : (a <= b)%Z -> pow2 a <= pow2 b.
Proof. intros H. apply Qpower_le_compat_l; [exact H|discriminate]. Qed.

Lemma pow2_lt a b : (a < b)%Z -> pow2 a < pow2 b.
Proof. intros H. apply Qpower_lt_compat_l; [exact H|reflexivity]. Qed.

Lemma pow2_Z n : (0 <= n)%Z -> pow2 n == inject_Z (2 ^ n).
Proof. intros H. unfold pow2. rewrite Zpower_Qpower by exact H. reflexivity. Qed.

Lemma floor_frac q : 0 <= q - inject_Z (Qfloor q) /\ q - inject_Z (Qfloor q) < 1.
Proof.
  pose proof (Qfloor_le q). pose proof (Qlt_floor q) as H1.
  rewrite inject_Z_plus in H1. change (inject_Z 1) with 1 in H1. split; lra.
Qed.

Lemma rne_cases q :
  (rne q = Qfloor q /\ q - inject_Z (Qfloor q) <= 1 # 2) \/
  (rne q = (Qfloor q + 1)%Z /\ 1 # 2 <= q - inject_Z (Qfloor q)).
Proof.
  unfold rne. destruct (Qcompare_spec (q - inject_Z (Qfloor q)) (1 # 2)) as [H|H|H].
  - destruct (Z.even (Qfloor q)); [left|right]; split; auto; rewrite H; lra.
  - left. split; [reflexivity|lra].
  - right. split; [reflexivity|lra].
Qed.

Lemma rne_error q :
  inject_Z (rne q) - q <= 1 # 2 /\ q - inject_Z (rne q) <= 1 # 2.
Proof.
  destruct (floor_frac q). destruct (rne_cases q) as [[-> ?]|[-> ?]].
  - split; lra.
  - rewrite inject_Z_plus. change (inject_Z 1) with 1. split; lra.
Qed.

Lemma rne_Z n : rne (inject_Z n) = n.
Proof.
  unfold rne. rewrite Qfloor_Z.
  destruct (Qcompare_spec (inject_Z n - inject_Z n) (1 # 2)) as [H|H|H];
    try reflexivity; lra.
Qed.

Lemma rne_mono p q : p <= q -> (rne p <= rne q)%Z.
Proof.
  intros Hpq. pose proof (Qfloor_resp_le _ _ Hpq) as Hf.
  destruct (floor_frac p) as [Fp1 Fp2], (floor_frac q) as [Fq1 Fq2].
  destruct (Z.eq_dec (Qfloor p) (Qfloor q)) as [E|NE].
  - unfold rne. rewrite <- E.
    assert (Hfrac : p - inject_Z (Qfloor p) <= q - inject_Z (Qfloor p)) by lra.
    destruct (Qcompare_spec (p - inject_Z (Qfloor p)) (1 # 2)) as [H1|H1|H1];
    destruct (Qcompare_spec (q - inject_Z (Qfloor p)) (1 # 2)) as [H2|H2|H2];
      try lia; try lra; destruct (Z.even (Qfloor p)); lia.
  - destruct (rne_cases p) as [[-> _]|[-> _]], (rne_cases q) as [[-> _]|[-> _]]; lia.
Qed.

Lemma floor_log2_spec q :
  0 < q -> pow2 (floor_log2 q) <= q /\ q < pow2 (floor_log2 q + 1).
Proof.
  intros Hq. destruct q as [n dn]. unfold floor_log2. simpl Qnum. simpl Qden.
  assert (Hn : (0 < n)%Z) by (unfold Qlt in Hq; simpl in Hq; lia).
  set (ln := Z.log2 n). set (ld := Z.log2 (Z.pos dn)).
  destruct (Z.log2_spec n Hn) as [Hn1 Hn2]. fold ln in Hn1, Hn2.
  destruct (Z.log2_spec (Z.pos dn) eq_refl) as [Hd1 Hd2]. fold ld in Hd1, Hd2.
  assert (Hln : (0 <= ln)%Z) by apply Z.log2_nonneg.
  assert (Hld : (0 <= ld)%Z) by apply Z.log2_nonneg.
  assert (Hqd : (n # dn) * inject_Z (Z.pos dn) == inject_Z n).
  { unfold Qeq, inject_Z, Qmult. simpl. lia. }
  assert (Hdpos : 0 < inject_Z (Z.pos dn)) by (unfold Qlt; simpl; lia).
  rewrite Zle_Qle in Hn1, Hd1. rewrite Zlt_Qlt in Hn2, Hd2.
  rewrite <- !pow2_Z in Hn1, Hd1 by lia.
  change (Z.succ ln) with (ln + 1)%Z in Hn2. change (Z.succ ld) with (ld + 1)%Z in Hd2.
  rewrite <- !pow2_Z in Hn2, Hd2 by lia.
  pose proof (pow2_pos ld). pose proof (pow2_pos (ln - ld)).
  pose proof (pow2_pos (ln - ld - 1)). pose proof (pow2_pos (ln - ld + 1)).
  assert (E1 : pow2 (ln + 1) == pow2 (ln - ld + 1) * pow2 ld)
    by (rewrite <- pow2_plus; f_equiv; lia).
  assert (E2 : pow2 ln == pow2 (ln - ld - 1) * pow2 (ld + 1))
    by (rewrite <- pow2_plus; f_equiv; lia).
  assert (Hup : (n # dn) < pow2 (ln - ld + 1)).
  { apply Qnot_le_lt. intros Hc.
    assert (H3 : pow2 (ln - ld + 1) * pow2 ld <= (n # dn) * inject_Z (Z.pos dn)).
    { apply Qmult_le_compat_nonneg; split;
        [apply Qlt_le_weak, pow2_pos|exact Hc|apply Qlt_le_weak, pow2_pos|exact Hd1]. }
    rewrite Hqd, <- E1 in H3.
    apply (Qlt_irrefl (inject_Z n)). eapply Qlt_le_trans; [exact Hn2|exact H3]. }
  assert (Hlow : pow2 (ln - ld - 1) < (n # dn)).
  { apply Qnot_le_lt. intros Hc.
    assert (H3 : (n # dn) * inject_Z (Z.pos dn) < pow2 (ln - ld - 1) * pow2 (ld + 1)).
    { apply Qle_lt_trans with (pow2 (ln - ld - 1) * inject_Z (Z.pos dn)).
      - apply Qmult_le_compat_r; [exact Hc|apply Qlt_le_weak, Hdpos].
      - apply Qmult_lt_l; [apply pow2_pos|exact Hd2]. }
    rewrite Hqd, <- E2 in H3.
    apply (Qlt_irrefl (inject_Z n)). eapply Qlt_le_trans; [exact H3|exact Hn1]. }
  destruct (Qle_bool (pow2 (ln - ld)) (n # dn)) eqn:Hb.
  - apply Qle_bool_iff in Hb. split; [exact Hb|exact Hup].
  - split; [apply Qlt_le_weak, Hlow|].
    replace (ln - ld - 1 + 1)%Z with (ln - ld)%Z by lia.
    apply Qnot_le_lt. intros Hc. apply Qle_bool_iff in Hc. congruence.
Qed.

Lemma div_pow2_le e p q : p <= q -> p / pow2 e <= q / pow2 e.
Proof.
  intros H. unfold Qdiv. apply Qmult_le_compat_r; [exact H|].
  apply Qlt_le_weak, Qinv_lt_0_compat, pow2_pos.
Qed.

Lemma round_at_mono e p q : p <= q -> round_at e p <= round_at e q.
Proof.
  intros H. unfold round_at. apply Qmult_le_compat_r.
  - rewrite <- Zle_Qle. apply rne_mono, div_pow2_le, H.
  - apply Qlt_le_weak, pow2_pos.
Qed.

Lemma round_at_pow2 e k : (e <= k)%Z -> round_at e (pow2 k) == pow2 k.
Proof.
  intros H. unfold round_at.
  assert (E : pow2 k / pow2 e == inject_Z (2 ^ (k - e))).
  { rewrite <- pow2_Z by lia. replace k with ((k - e) + e)%Z at 1 by lia.
    rewrite pow2_plus. field. intros E. pose proof (pow2_pos e) as P.
    rewrite E in P. discriminate P. }
  assert (R : rne (pow2 k / pow2 e) = (2 ^ (k - e))%Z).
  { apply Z.le_antisymm.
    - rewrite <- (rne_Z (2 ^ (k - e))). apply rne_mono. rewrite E. apply Qle_refl.
    - rewrite <- (rne_Z (2 ^ (k - e))) at 1. apply rne_mono. rewrite E. apply Qle_refl. }
  rewrite R, <- pow2_Z, <- pow2_plus by lia. f_equiv. lia.
Qed.

Lemma round_at_error e q :
  round_at e q - q <= (1 # 2) * pow2 e /\ q - round_at e q <= (1 # 2) * pow2 e.
Proof.
  pose proof (pow2_pos e) as P. destruct (rne_error (q / pow2 e)) as [A B].
  assert (N : ~ pow2 e == 0) by (intros E; rewrite E in P; discriminate P).
  unfold round_at.
  assert (E1 : inject_Z (rne (q / pow2 e)) * pow2 e - q ==
               (inject_Z (rne (q / pow2 e)) - q / pow2 e) * pow2 e)
    by (field; exact N).
  assert (E2 : q - inject_Z (rne (q / pow2 e)) * pow2 e ==
               (q / pow2 e - inject_Z (rne (q / pow2 e))) * pow2 e)
    by (field; exact N).
  rewrite E1, E2.
  split; (apply Qmult_le_compat_r; [assumption|apply Qlt_le_weak, P]).
Qed.

Lemma round64_pos q : 0 < q -> round64 q = round_at (exponent q) q.
Proof.
  intros H. unfold round64. destruct (Qcompare_spec q 0) as [E|E|E].
  - rewrite E in H. discriminate H.
  - exfalso. apply (Qlt_irrefl 0). eapply Qlt_trans; eassumption.
  - reflexivity.
Qed.

Lemma round64_zero q : q == 0 -> round64 q = 0.
Proof.
  intros H. unfold round64. destruct (Qcompare_spec q 0) as [E|E|E].
  - reflexivity.
  - rewrite H in E. discriminate E.
  - rewrite H in E. discriminate E.
Qed.

Lemma round64_neg q : q < 0 -> round64 q = - round_at (exponent (- q)) (- q).
Proof.
  intros H. unfold round64. destruct (Qcompare_spec q 0) as [E|E|E].
  - rewrite E in H. discriminate H.
  - reflexivity.
  - exfalso. apply (Qlt_irrefl 0). eapply Qlt_trans; eassumption.
Qed.

Lemma floor_log2_mono p q : 0 < p -> p <= q -> (floor_log2 p <= floor_log2 q)%Z.
Proof.
  intros Hp Hpq. assert (Hq : 0 < q) by (eapply Qlt_le_trans; eassumption).
  destruct (floor_log2_spec p Hp) as [A _], (floor_log2_spec q Hq) as [_ B].
  assert (L : pow2 (floor_log2 p) < pow2 (floor_log2 q + 1))
    by (eapply Qle_lt_trans; [exact A|]; eapply Qle_lt_trans; eassumption).
  apply Qpower_lt_compat_l_inv in L; [lia|reflexivity].
Qed.

Lemma round_at_nonneg e q : 0 <= q -> 0 <= round_at e q.
Proof.
  intros H. unfold round_at. apply Qmult_le_0_compat.
  - change 0 with (inject_Z 0). rewrite <- Zle_Qle. rewrite <- (rne_Z 0) at 1.
    apply rne_mono. change (inject_Z 0) with 0.
    unfold Qdiv. apply Qmult_le_0_compat; [exact H|].
    apply Qlt_le_weak, Qinv_lt_0_compat, pow2_pos.
  - apply Qlt_le_weak, pow2_pos.
Qed.

Lemma round64_mono_pos p q : 0 < p -> p <= q -> round64 p <= round64 q.
Proof.
  intros Hp Hpq. assert (Hq : 0 < q) by (eapply Qlt_le_trans; eassumption).
  rewrite (round64_pos p Hp), (round64_pos q Hq).
  pose proof (floor_log2_mono p q Hp Hpq) as Hfl.
  destruct (Z.eq_dec (exponent p) (exponent q)) as [E|NE].
  - rewrite E. apply round_at_mono, Hpq.
  - assert (Hlt : (exponent p < exponent q)%Z) by (unfold exponent in *; lia).
    set (k := Z.max (floor_log2 p + 1) (exponent p)).
    destruct (floor_log2_spec p Hp) as [_ Pu], (floor_log2_spec q Hq) as [Ql _].
    apply Qle_trans with (pow2 k).
    + rewrite <- (round_at_pow2 (exponent p) k) by lia.
      apply round_at_mono. apply Qlt_le_weak. eapply Qlt_le_trans; [exact Pu|].
      apply pow2_le. lia.
    + apply Qle_trans with (pow2 (floor_log2 q)).
      * apply pow2_le. unfold k, exponent in *. lia.
      * rewrite <- (round_at_pow2 (exponent q) (floor_log2 q)) by (unfold exponent in *; lia).
        apply round_at_mono, Ql.
Qed.

Lemma round64_nonneg q : 0 <= q -> 0 <= round64 q.
Proof.
  intros H. destruct (Qlt_le_dec 0 q) as [P|N].
  - rewrite (round64_pos q P). apply round_at_nonneg, H.
  - rewrite (round64_zero q); [apply Qle_refl|apply Qle_antisym; assumption].
Qed.

Lemma round64_nonpos q : q <= 0 -> round64 q <= 0.
Proof.
  intros H. destruct (Qlt_le_dec q 0) as [P|N].
  - rewrite (round64_neg q P).
    assert (0 <= round_at (exponent (- q)) (- q)) by (apply round_at_nonneg; lra).
    lra.
  - rewrite (round64_zero q); [apply Qle_refl|apply Qle_antisym; assumption].
Qed.

(** Rounding to binary64 is monotone. *)
Lemma round64_mono p q : p <= q -> round64 p <= round64 q.
Proof.
  intros H. destruct (Qlt_le_dec 0 p) as [Pp|Np].
  - apply round64_mono_pos; assumption.
  - destruct (Qlt_le_dec q 0) as [Nq|Pq].
    + assert (Hp : p < 0) by exact (Qle_lt_trans _ _ _ H Nq).
      assert (Hq' : 0 < - q) by lra. assert (Hp' : 0 < - p) by lra.
      assert (M : round64 (- q) <= round64 (- p)) by (apply round64_mono_pos; lra).
      rewrite (round64_pos (- q) Hq'), (round64_pos (- p) Hp') in M.
      rewrite (round64_neg p Hp), (round64_neg q Nq). lra.
    + apply Qle_trans with 0; [apply round64_nonpos, Np|apply round64_nonneg, Pq].
Qed.

Lemma round64_100 : round64 100 == 100.
Proof. vm_compute. reflexivity. Qed.

Lemma exponent_percent q : 0 < q -> q <= 100 -> (exponent q <= -46)%Z.
Proof.
  intros H0 H1. destruct (floor_log2_spec q H0) as [A _].
  assert (L : pow2 (floor_log2 q) < pow2 7).
  { eapply Qle_lt_trans; [exact A|]. eapply Qle_lt_trans; [exact H1|]. vm_compute. reflexivity. }
  apply Qpower_lt_compat_l_inv in L; [|reflexivity]. unfold exponent. lia.
Qed.

(** On [0, 100] rounding to binary64 stays in [0, 100] and moves a number by
    at most [2^-47]. *)
Lemma round64_percent q :
  0 <= q -> q <= 100 ->
  0 <= round64 q /\ round64 q <= 100 /\
  round64 q - q <= pow2 (-47) /\ q - round64 q <= pow2 (-47).
Proof.
  intros H0 H1. split; [apply round64_nonneg, H0|].
  split; [rewrite <- round64_100; apply round64_mono, H1|].
  destruct (Qlt_le_dec 0 q) as [P|N].
  - rewrite (round64_pos q P).
    destruct (round_at_error (exponent q) q) as [A B].
    pose proof (pow2_le _ _ (exponent_percent q P H1)) as L.
    assert (E : pow2 (-47) == (1 # 2) * pow2 (-46)) by (vm_compute; reflexivity).
    split; lra.
  - rewrite (round64_zero q) by (apply Qle_antisym; assumption).
    pose proof (pow2_pos (-47)). split; lra.
Qed.

Lemma Math_round_bounds (q : Q) :
  (q - (1 # 2) < inject_Z (Math_round q))%Q /\
  (inject_Z (Math_round q) <= q + (1 # 2))%Q.
Proof.
  unfold Math_round.
  pose proof (Qfloor_le (q + (1 # 2))) as F1.
  pose proof (Qlt_floor (q + (1 # 2))) as F2.
  rewrite inject_Z_plus in F2. change (inject_Z 1) with 1%Q in F2.
  split; lra.
Qed.

Lemma Math_round_monotone (p q : Q) :
  (p <= q)%Q -> (Math_round p <= Math_round q)%Z.
Proof. intros H. apply Qfloor_resp_le. lra. Qed.

Lemma Math_round_comp (p q : Q) : p == q -> Math_round p = Math_round q.
Proof. intros H. apply Qfloor_comp. rewrite H. reflexivity. Qed.

(** Away from the ties, [100 - Math.round(q)] is [Math.round(100 - q)]. *)
Lemma Math_round_flip (q : Q) :
  (forall k : Z, ~ q + (1 # 2) == inject_Z k) ->
  (100 - Math_round q)%Z = Math_round (100 - q).
Proof.
  intros Hno. symmetry. unfold Math_round at 1.
  destruct (Math_round_bounds q) as [B1 B2].
  assert (~ inject_Z (Math_round q) == q + (1 # 2))
    by (intros E; apply (Hno (Math_round q)); lra).
  apply Qfloor_unique.
  - unfold Z.sub. rewrite inject_Z_plus, inject_Z_opp.
    change (inject_Z 100) with 100. lra.
  - replace (100 - Math_round q + 1)%Z with (101 + - Math_round q)%Z by lia.
    rewrite inject_Z_plus, inject_Z_opp. change (inject_Z 101) with 101. lra.
Qed.

(** A number that is near [q], which is farther from every tie, rounds as
    [q] does. *)
Lemma Math_round_near (eps q r : Q) :
  r - q <= eps -> q - r <= eps ->
  (forall k : Z, eps < Qabs (q + (1 # 2) - inject_Z k)) ->
  Math_round r = Math_round q.
Proof.
  intros H1 H2 Hfar. unfold Math_round at 1. apply Qfloor_unique.
  - destruct (Math_round_bounds q) as [_ B].
    pose proof (Hfar (Math_round q)) as F.
    rewrite Qabs_pos in F by lra. lra.
  - destruct (Math_round_bounds q) as [B _].
    pose proof (Hfar (Math_round q + 1)%Z) as F.
    rewrite inject_Z_plus in *. change (inject_Z 1) with 1 in *.
    rewrite Qabs_neg in F by lra. lra.
Qed.

Lemma transparency_range (a : Q) :
  0 <= a -> a <= 1 -> (0 <= transparency a <= 100)%Z.
Proof.
  intros H0 H1. unfold transparency, times.
  destruct (round64_percent (a * 100)) as (R0 & R1 & _); [lra|lra|].
  destruct (Math_round_bounds (round64 (a * 100))) as [B1 B2].
  assert (-1 < Math_round (round64 (a * 100)))%Z.
  { rewrite Zlt_Qlt. change (inject_Z (-1)) with (-1). lra. }
  assert (Math_round (round64 (a * 100)) < 101)%Z.
  { rewrite Zlt_Qlt. change (inject_Z 101) with 101. lra. }
  lia.
Qed.

Lemma transparency_nearest (a : Q) :
  0 <= a -> a <= 1 ->
  100 * (1 - a) - (1 # 2) - pow2 (-47) <= inject_Z (transparency a) /\
  inject_Z (transparency a) < 100 * (1 - a) + (1 # 2) + pow2 (-47).
Proof.
  intros H0 H1. unfold transparency, times.
  destruct (round64_percent (a * 100)) as (_ & _ & E1 & E2); [lra|lra|].
  destruct (Math_round_bounds (round64 (a * 100))) as [B1 B2].
  unfold Z.sub. rewrite inject_Z_plus, inject_Z_opp.
  change (inject_Z 100) with 100. split; lra.
Qed.

Lemma transparency_far (a : Q) :
  0 <= a -> a <= 1 ->
  (forall k : Z, pow2 (-47) < Qabs (a * 100 + (1 # 2) - inject_Z k)) ->
  transparency a = Math_round (100 * (1 - a)).
Proof.
  intros H0 H1 Hfar. unfold transparency, times.
  destruct (round64_percent (a * 100)) as (_ & _ & E1 & E2); [lra|lra|].
  rewrite (Math_round_near (pow2 (-47)) (a * 100)) by assumption.
  rewrite Math_round_flip.
  - apply Math_round_comp. ring.
  - intros k E. pose proof (Hfar k) as F. pose proof (pow2_pos (-47)) as P.
    rewrite Qabs_pos in F by lra. lra.
Qed.

Lemma transparency_exact (a : Q) :
  round64 (a * 100) == a * 100 ->
  (forall k : Z, ~ a * 100 + (1 # 2) == inject_Z k) ->
  transparency a = Math_round (100 * (1 - a)).
Proof.
  intros E Hno. unfold transparency, times.
  rewrite (Math_round_comp _ _ E), Math_round_flip by exact Hno.
  apply Math_round_comp. ring.
Qed.

Lemma transparency_falls (a b : Q) :
  a <= b -> (transparency b <= transparency a)%Z.
Proof.
  intros H. unfold transparency, times.
  assert (Math_round (round64 (a * 100)) <= Math_round (round64 (b * 100)))%Z
    by (apply Math_round_monotone, round64_mono; lra).
  lia.
Qed.

End Rounding.

(** ** Properties of the colors *)

(** C4, amended: for a color that the parser accepts, whose [hex()] is a
    hash sign and six hexadecimal digits and whose opacity [a] is in
    [[0,1]], the result is the six digits in upper case alone when [a = 1],
    and otherwise a solid record of these digits whose alpha is
    [100 - Math.round(a * 100)], the product being that of binary64: an
    integer in [[0,100]], at most [1/2 + 2^-47] away from [100 (1 - a)],
    and equal to the nearest integer of [100 (1 - a)], a tie going up,
    whenever [100 a] is more than [2^-47] away from every point half way
    between two integers, and whenever the product is exact and not such a
    point. *)
Theorem normalizeHexOrComplexColor_spec (colorString : value) (clr : ColorT) :
  Color colorString = Some clr ->
  hex_wf clr ->
  (0 <= alpha clr)%Q -> (alpha clr <= 1)%Q ->
  exists hexColor : string,
    hex clr = String "#" (substring 1 (hex clr)) /\
    hexColor = toUpperCase (substring 1 (hex clr)) /\
    String.length hexColor = 6%nat /\
    allChars isUpperHex hexColor = true /\
    ((alpha clr == 1)%Q ->
       normalizeHexOrComplexColor colorString = Ret (Hex hexColor)) /\
    (~ (alpha clr == 1)%Q ->
       normalizeHexOrComplexColor colorString =
         Ret (Complex (mkComplexColor "solid" hexColor
                         (inject_Z (100 - Math_round (round64 (alpha clr * 100))))))) /\
    (0 <= 100 - Math_round (round64 (alpha clr * 100)) <= 100)%Z /\
    (100 * (1 - alpha clr) - (1 # 2) - pow2 (-47)
       <= inject_Z (100 - Math_round (round64 (alpha clr * 100))))%Q /\
    (inject_Z (100 - Math_round (round64 (alpha clr * 100)))
       < 100 * (1 - alpha clr) + (1 # 2) + pow2 (-47))%Q /\
    ((forall k : Z,
        (pow2 (-47) < Qabs (alpha clr * 100 + (1 # 2) - inject_Z k))%Q) ->
       (100 - Math_round (round64 (alpha clr * 100)))%Z =
       Math_round (100 * (1 - alpha clr))) /\
    ((round64 (alpha clr * 100) == alpha clr * 100)%Q ->
     (forall k : Z, ~ (alpha clr * 100 + (1 # 2) == inject_Z k)%Q) ->
       (100 - Math_round (round64 (alpha clr * 100)))%Z =
       Math_round (100 * (1 - alpha clr))).
Proof.
  intros Hparse (hx & Hhex & Hlen & Hdigits) H0 H1.
  exists (toUpperCase (substring 1 (hex clr))).
  rewrite Hhex. simpl substring.
  split; [done|]. split; [done|].
  split; [by rewrite toUpperCase_length|].
  split; [by apply toUpperCase_hex|].
  unfold normalizeHexOrComplexColor, parseColor. rewrite Hparse.
  cbn [bind]. rewrite Hhex. simpl substring.
  split; [|split].
  - intros E. apply Qeq_bool_iff in E. by rewrite E.
  - intros E. destruct (Qeq_bool (alpha clr) 1) eqn:Eb; [|done].
    apply Qeq_bool_iff in Eb. contradiction.
  - split; [exact (transparency_range _ H0 H1)|].
    split; [exact (proj1 (transparency_nearest _ H0 H1))|].
    split; [exact (proj2 (transparency_nearest _ H0 H1))|].
    split; [exact (transparency_far _ H0 H1)|].
    exact (transparency_exact _).
Qed.

(** ** Properties of [normalizeText] *)

Lemma bind_Ret_inv {A B} (m : outcome A) (k : A -> outcome B) (b : B) :
  bind m k = Ret b -> exists a, m = Ret a /\ k a = Ret b.
Proof. destruct m as [a|e]; simpl; [eauto|discriminate]. Qed.

Lemma bind_bind {A B C} (m : outcome A) (k : A -> outcome B) (k' : B -> outcome C) :
  bind (bind m k) k' = bind m (fun a => bind (k a) k').
Proof. by destruct m. Qed.

Lemma bind_ext {A B} (m : outcome A) (k k' : A -> outcome B) :
  (forall a, k a = k' a) -> bind m k = bind m k'.
Proof. intros H. destruct m; simpl; [apply H|done]. Qed.

Lemma reduce_app {A E} (cb : A -> E -> outcome A) (l1 l2 : list E) (acc : A) :
  reduce cb (l1 ++ l2) acc = bind (reduce cb l1 acc) (reduce cb l2).
Proof.
  revert acc. induction l1 as [|e l1 IH]; intros acc; simpl; [done|].
  destruct (cb acc e); simpl; [apply IH|done].
Qed.

Lemma TextChild_array_ind (P : TextChild -> Prop) :
  (forall e, P (TNode e)) ->
  (forall l, Forall P l -> P (TArray l)) ->
  (forall v, P (TNoise v)) ->
  forall t, P t.
Proof.
  intros Hnode Harray Hnoise. fix IH 1. intros [e|l|v].
  - apply Hnode.
  - apply Harray. induction l as [|t l IHl]; constructor; [apply IH|apply IHl].
  - apply Hnoise.
Qed.

Lemma flattenChildren_reduce_spec {A} (cb : A -> TextNode -> outcome A)
    (t : TextChild) (acc : A) :
  flattenChildren_reduce cb t acc = reduce cb (flattenChildren (asChildren t)) acc.
Proof.
  revert acc. induction t as [e|l IH|v] using TextChild_array_ind; intros acc.
  - simpl. by destruct (cb acc e).
  - simpl. revert acc. induction IH as [|t l Ht _ IHl]; intros acc; [done|].
    simpl. rewrite reduce_app.
    rewrite <- Ht. apply bind_ext. intros a. apply IHl.
  - done.
Qed.

Lemma normalizeText_unfold (t : TextChild) :
  normalizeText t =
  if isReactElementOrElementArray t then
    reduce textCallback (flattenChildren (asChildren t)) []
  else
    match t with
    | TArray l =>
        reduce (fun prev cur => do r <- normalizeText cur; Ret (prev ++ r)) l []
    | TNode (TString s) => Ret [plainPart s]
    | TNode (TNumber n) => Ret [plainPart (Number_toString n)]
    | _ => Throw invalid_text_child
    end.
Proof.
  rewrite <- flattenChildren_reduce_spec. by destruct t.
Qed.

Lemma textCallback_append (acc : list InternalTextPart) (el : TextNode) :
  textCallback acc el = do r <- textCallback [] el; Ret (acc ++ r).
Proof.
  destruct el as [s|n|props|children props]; simpl; try done.
  - by destruct (normalizeStyleColor (tl_style props)).
  - destruct (normalizeText children); simpl; [|done].
    by destruct (normalizeStyleColor (tb_style props)).
Qed.

Lemma reduce_concat {E B} (f : E -> outcome (list B)) (l : list E) (acc : list B) :
  reduce (fun prev cur => do r <- f cur; Ret (prev ++ r)) l acc =
  do rss <- mapM f l; Ret (acc ++ concat rss).
Proof.
  revert acc. induction l as [|e l IH]; intros acc; simpl.
  - by rewrite app_nil_r.
  - destruct (f e) as [r|]; simpl; [|done]. rewrite IH.
    destruct (mapM f l); simpl; [|done]. by rewrite app_assoc.
Qed.

(** ** Properties of the runs of a bullet *)

Lemma mapi_from_length {A B} (f : A -> nat -> B) (l : list A) (k : nat) :
  List.length (mapi_from f l k) = List.length l.
Proof. revert k. induction l; intros k; simpl; [done|]. by rewrite IHl. Qed.

Lemma mapi_from_lookup {A B} (f : A -> nat -> B) (l : list A) (k i : nat) :
  mapi_from f l k !! i = (fun a => f a (k + i)%nat) <$> (l !! i).
Proof.
  revert k i. induction l as [|a l IH]; intros k i; simpl; [done|].
  destruct i as [|i]; simpl.
  - by rewrite Nat.add_0_r.
  - rewrite IH. by rewrite Nat.add_succ_r.
Qed.

Lemma mapi_lookup {A B} (f : A -> nat -> B) (l : list A) (i : nat) :
  mapi f l !! i = (fun a => f a i) <$> (l !! i).
Proof. unfold mapi. by rewrite mapi_from_lookup. Qed.

Lemma mapi_length {A B} (f : A -> nat -> B) (l : list A) :
  List.length (mapi f l) = List.length l.
Proof. apply mapi_from_length. Qed.

(** The style of a run of a bullet, key by key: the key of the run when
    the run owns it, and the key of the marker's style when not. *)
Lemma bulletPart_style_lookup rtl lng b (parentStyle : Style) n childPart index k :
  style (bulletPart rtl lng b parentStyle n childPart index) !! k =
  match style childPart !! k with
  | Some v => Some v
  | None => parentStyle !! k
  end.
Proof.
  simpl. unfold spread. rewrite lookup_union.
  destruct (style childPart !! k), (parentStyle !! k); done.
Qed.

Lemma noBullet_flattened (t : TextChild) :
  noBullet t = true ->
  Forall (fun e => notBullet e = true) (flattenChildren (asChildren t)).
Proof.
  induction t as [e|l IH|v] using TextChild_array_ind; intros Hn; simpl.
  - constructor; [|constructor]. by destruct e.
  - simpl in Hn. rewrite forallb_forall in Hn.
    induction IH as [|t l Ht _ IHl]; simpl; [constructor|].
    apply Forall_app. split.
    + apply Ht, Hn. by left.
    + apply IHl. intros t' Ht'. apply Hn. by right.
  - constructor.
Qed.

Lemma textCallback_noBullet acc e out :
  notBullet e = true ->
  textCallback acc e = Ret out ->
  Forall (fun r => bullet r = NoKey) acc ->
  Forall (fun r => bullet r = NoKey) out.
Proof.
  intros Hb Hr Hacc. destruct e as [s|n|props|children props]; simpl in *;
    try discriminate.
  - injection Hr as <-. apply Forall_app. by repeat constructor.
  - injection Hr as <-. apply Forall_app. by repeat constructor.
  - destruct (normalizeStyleColor (tl_style props)); simpl in Hr; [|done].
    injection Hr as <-. apply Forall_app. by repeat constructor.
Qed.

Lemma reduce_noBullet (l : list TextNode) acc out :
  Forall (fun e => notBullet e = true) l ->
  reduce textCallback l acc = Ret out ->
  Forall (fun r => bullet r = NoKey) acc ->
  Forall (fun r => bullet r = NoKey) out.
Proof.
  intros Hl. revert acc. induction Hl as [|e l He _ IH]; intros acc Hr Hacc.
  - simpl in Hr. by injection Hr as <-.
  - simpl in Hr. apply bind_Ret_inv in Hr as (acc' & H1 & H2).
    eapply IH; [exact H2|]. eapply textCallback_noBullet; eauto.
Qed.

(** Without a [text-bullet] element in [t], no run of [t] owns the key
    [bullet]. *)
Lemma normalizeText_noBullet (t : TextChild) :
  noBullet t = true ->
  forall out, normalizeText t = Ret out ->
  Forall (fun r => bullet r = NoKey) out.
Proof.
  induction t as [e|l IH|v] using TextChild_array_ind; intros Hn out;
    rewrite normalizeText_unfold;
    (destruct (isReactElementOrElementArray _);
     [intros Hr; eapply reduce_noBullet;
        [by apply noBullet_flattened|exact Hr|constructor]|]).
  - destruct e; try discriminate; intros [= <-]; by repeat constructor.
  - simpl in Hn. rewrite forallb_forall in Hn.
    assert (Hacc : Forall (fun r => bullet r = NoKey) (@nil InternalTextPart))
      by constructor.
    revert Hacc. generalize (@nil InternalTextPart) as acc.
    induction IH as [|t l Ht _ IHl]; intros acc Hacc Hr; simpl in Hr.
    + by injection Hr as <-.
    + apply bind_Ret_inv in Hr as (acc' & H1 & H2).
      apply bind_Ret_inv in H1 as (r & H1 & [= <-]).
      eapply IHl; [|apply Forall_app; split; [exact Hacc|]|exact H2].
      * intros t' Ht'. apply Hn. by right.
      * eapply Ht; [|exact H1]. apply Hn. by left.
  - discriminate.
Qed.

Section Guard.

(** The guard accepts a [text-link] and a [text-bullet] element. *)
Hypothesis guard_elements :
  forall e, isValidElement e = true -> isReactElementOrElementArray (TNode e) = true.

Lemma normalizeText_node (e : TextNode) :
  normalizeText (TNode e) = textCallback [] e.
Proof.
  rewrite normalizeText_unfold.
  destruct (isReactElementOrElementArray (TNode e)) eqn:Hg.
  - simpl. by destruct (textCallback [] e).
  - destruct e as [s|n|props|children props]; try done;
      by rewrite guard_elements in Hg.
Qed.

Lemma normalizeText_bullet (children : TextChild) (props : TextBulletProps) :
  normalizeText (TNode (TextBullet children props)) =
  do normalizedChildren <- normalizeText children;
  do normalizedParentColor <- normalizeStyleColor (tb_style props);
  Ret (mapi (bulletPart (tb_rtlMode props) (tb_lang props)
               (bulletOf (tb_bulletProps props))
               (<["color" := normalizedParentColor]> (orEmpty (tb_style props)))
               (List.length normalizedChildren))
            normalizedChildren).
Proof. by rewrite normalizeText_node. Qed.

(** Walking the flattened nodes of an array is walking its members, when
    walking the flattened nodes of each member is normalizing it. *)
Lemma reduce_members (l : list TextChild) :
  Forall (fun t => forall acc,
            reduce textCallback (flattenChildren (asChildren t)) acc =
            do r <- normalizeText t; Ret (acc ++ r)) l ->
  forall acc,
    reduce textCallback (flattenChildren (asChildren (TArray l))) acc =
    reduce (fun prev cur => do r <- normalizeText cur; Ret (prev ++ r)) l acc.
Proof.
  simpl. induction 1 as [|t l Ht _ IHl]; intros acc; [done|].
  simpl. rewrite reduce_app, Ht.
  destruct (normalizeText t); simpl; [apply IHl|done].
Qed.

Lemma reduce_flattened (t : TextChild) :
  noNoise t = true ->
  forall acc,
    reduce textCallback (flattenChildren (asChildren t)) acc =
    do r <- normalizeText t; Ret (acc ++ r).
Proof.
  induction t as [e|l IH|v] using TextChild_array_ind; intros Hn acc.
  - rewrite normalizeText_node. simpl. rewrite (textCallback_append acc e).
    by destruct (textCallback [] e).
  - simpl in Hn. rewrite forallb_forall in Hn.
    assert (Hl : Forall (fun t => forall acc,
              reduce textCallback (flattenChildren (asChildren t)) acc =
              do r <- normalizeText t; Ret (acc ++ r)) l).
    { rewrite List.Forall_forall in IH |- *. intros t Ht. apply IH; auto. }
    rewrite (reduce_members l Hl), (normalizeText_unfold (TArray l)).
    rewrite (reduce_members l Hl).
    destruct (isReactElementOrElementArray (TArray l));
      rewrite !reduce_concat; destruct (mapM normalizeText l); done.
  - discriminate.
Qed.

Lemma reduce_flattened_array (l : list TextChild) :
  noNoise (TArray l) = true ->
  forall acc,
    reduce textCallback (flattenChildren (asChildren (TArray l))) acc =
    reduce (fun prev cur => do r <- normalizeText cur; Ret (prev ++ r)) l acc.
Proof.
  intros Hn. apply reduce_members. simpl in Hn. rewrite forallb_forall in Hn.
  apply List.Forall_forall. intros t Ht. apply reduce_flattened. auto.
Qed.

Lemma normalizeText_members (l : list TextChild) :
  noNoise (TArray l) = true ->
  normalizeText (TArray l) = do rss <- mapM normalizeText l; Ret (concat rss).
Proof.
  intros Hn. rewrite normalizeText_unfold.
  destruct (isReactElementOrElementArray (TArray l)).
  - rewrite reduce_flattened_array by done. by rewrite reduce_concat.
  - by rewrite reduce_concat.
Qed.

(** C8: on an array none of whose members (at any depth of arrays) is
    [null], [undefined] or a boolean, as the type [TextChild] has it,
    [normalizeText] is the concatenation, in the order of the members, of
    [normalizeText] of each member, the first exception ending the walk;
    the witness is [["a", ["b", "c"]]], which gives the runs of "a", "b" and
    "c" in this order.  The result depends on the input alone:
    [normalizeText] is a function. *)
Theorem normalizeText_array (l : list TextChild) :
  noNoise (TArray l) = true ->
  normalizeText (TArray l) = do rss <- mapM normalizeText l; Ret (concat rss).
Proof. exact (normalizeText_members l). Qed.

(** A link in a bullet: its run has the [rtlMode], the [lang] and the
    color of the link itself, [undefined] when the link sets none, whatever
    the marker has. *)
Lemma bullet_around_link (link' : TextLinkProps) (props : TextBulletProps)
    (out : list InternalTextPart) :
  normalizeText (TNode (TextBullet (TNode (TextLink link')) props)) = Ret out ->
  exists run c,
    out = [run] /\
    rtlMode run = ofOption (tl_rtlMode link') /\
    lang run = ofOption (tl_lang link') /\
    normalizeStyleColor (tl_style link') = Ret c /\
    style run !! "color" = Some c.
Proof.
  rewrite normalizeText_bullet, normalizeText_node. simpl. intros H.
  apply bind_Ret_inv in H as (nc & Hnc & H).
  apply bind_Ret_inv in Hnc as (c & Hc & [= <-]).
  apply bind_Ret_inv in H as (pc & Hpc & [= <-]).
  eexists _, c. split; [reflexivity|]. simpl. repeat split; try done.
  - by destruct (tl_rtlMode link').
  - by destruct (tl_lang link').
  - unfold spread. rewrite lookup_union, lookup_insert_eq.
    by destruct (_ !! _).
Qed.

(** A string in a bullet: its run has the [rtlMode] and the [lang] of the
    marker, and every key of the style of the marker. *)
Lemma bullet_around_string (s : string) (props : TextBulletProps)
    (out : list InternalTextPart) :
  normalizeText (TNode (TextBullet (TNode (TString s)) props)) = Ret out ->
  exists run pc,
    out = [run] /\
    rtlMode run = ofOption (tb_rtlMode props) /\
    lang run = ofOption (tb_lang props) /\
    normalizeStyleColor (tb_style props) = Ret pc /\
    style run = <["color" := pc]> (orEmpty (tb_style props)).
Proof.
  rewrite normalizeText_bullet, normalizeText_node. simpl. intros H.
  apply bind_Ret_inv in H as (pc & Hpc & [= <-]).
  eexists _, pc. split; [reflexivity|]. simpl. repeat split; try done.
  unfold spread. by rewrite (left_id_L ∅ (∪)).
Qed.

(** C1, amended: for a [text-bullet] element whose children normalize to
    [N] runs, [normalizeText] gives [N] runs; [breakLine] is [true] on the
    last one and [false] on every other one; the first run gets the value
    of the marker and every later run gets [undefined] as its [bullet],
    but for a run that owns the key [bullet] already, which keeps its own.
    When the children hold no [text-bullet] element, no run owns the key:
    the first run has the value of the marker and it alone has a bullet. *)
Theorem bullet_runs (children : TextChild) (props : TextBulletProps)
    (out : list InternalTextPart) :
  normalizeText (TNode (TextBullet children props)) = Ret out ->
  exists normalizedChildren,
    normalizeText children = Ret normalizedChildren /\
    List.length out = List.length normalizedChildren /\
    (forall i part, out !! i = Some part ->
       breakLine part = Defined (bool_decide (S i = List.length out))) /\
    (forall i part, out !! i = Some part ->
       exists childPart,
         normalizedChildren !! i = Some childPart /\
         bullet part =
           override (if (i =? 0)%nat
                     then Defined (bulletOf (tb_bulletProps props))
                     else Undefined)
                    (bullet childPart)) /\
    (noBullet children = true ->
     forall i part, out !! i = Some part ->
       bullet part = if (i =? 0)%nat
                     then Defined (bulletOf (tb_bulletProps props))
                     else Undefined).
Proof.
  rewrite normalizeText_bullet. intros Hr.
  apply bind_Ret_inv in Hr as (nc & Hnc & Hr).
  apply bind_Ret_inv in Hr as (pc & Hpc & [= <-]).
  exists nc. split; [done|]. split; [apply mapi_length|].
  rewrite mapi_length. split; [|split].
  - intros i part. rewrite mapi_lookup. intros Hi.
    apply fmap_Some in Hi as (childPart & Hi & ->). simpl.
    apply lookup_lt_Some in Hi. f_equal.
    destruct (Nat.leb_spec (List.length nc) (i + 1)).
    + symmetry. apply bool_decide_eq_true. lia.
    + symmetry. apply bool_decide_eq_false. lia.
  - intros i part. rewrite mapi_lookup. intros Hi.
    apply fmap_Some in Hi as (childPart & Hi & ->). eauto.
  - intros Hnb i part. rewrite mapi_lookup. intros Hi.
    apply fmap_Some in Hi as (childPart & Hi & ->). simpl.
    pose proof (normalizeText_noBullet children Hnb nc Hnc) as Hall.
    rewrite List.Forall_forall in Hall.
    rewrite (Hall childPart); [done|].
    apply list_elem_of_In. eapply list_elem_of_lookup_2. exact Hi.
Qed.

End Guard.

(** ** Properties of the slide objects *)

Lemma mapM_Ret {A B} (f : A -> outcome B) (l : list A) (l' : list B) :
  mapM f l = Ret l' <-> Forall2 (fun a b => f a = Ret b) l l'.
Proof.
  revert l'. induction l as [|a l IH]; intros l'; simpl.
  - split; [intros [= <-]; constructor|]. by inversion 1.
  - split.
    + intros H. apply bind_Ret_inv in H as (b & Hb & H).
      apply bind_Ret_inv in H as (bs & Hbs & [= <-]).
      constructor; [done|]. by apply IH.
    + inversion 1 as [|? b ? bs Hb Hbs]; subst.
      rewrite Hb. simpl. apply IH in Hbs. by rewrite Hbs.
Qed.

Lemma mapM_length {A B} (f : A -> outcome B) (l : list A) (l' : list B) :
  mapM f l = Ret l' -> List.length l' = List.length l.
Proof. rewrite mapM_Ret. intros H. symmetry. by eapply Forall2_length. Qed.

Lemma bind_not_null {A B} (m : outcome A) (k : A -> outcome (option B)) :
  (forall a, k a <> Ret None) -> bind m k <> Ret None.
Proof. intros Hk. destruct m; simpl; [apply Hk|done]. Qed.

Lemma normalizeSlideObject_unfold (node : Node) :
  normalizeSlideObject node =
  match v_style (nodeProps node) with
  | None => Throw (missing_style (nodeType node))
  | Some style =>
    let props := nodeProps node in
    if isKind LINE node then
      do color <- normalizeColorOrNull (get "color" style);
      Ret (Some (InternalLine (v_x1 props) (v_y1 props) (v_x2 props) (v_y2 props)
                   color (nullish (get "width" style) VNull)))
    else
      do nx <- normalizeCoordinate (get "x" style) 0%Q;
      do ny <- normalizeCoordinate (get "y" style) 0%Q;
      do nw <- normalizeCoordinate (get "w" style) 1%Q;
      do nh <- normalizeCoordinate (get "h" style) 1%Q;
      let normalizedCoordinates := {| x := nx; y := ny; w := nw; h := nh |} in
      if isKind TEXT node then
        do ts <- normalizeTextType props style normalizedCoordinates;
        Ret (Some (InternalText ts.1 ts.2 None))
      else if isKind TABLE_CELL node then
        do ts <- normalizeTextType props style normalizedCoordinates;
        Ret (Some (InternalText ts.1 ts.2 (Some (v_colSpan props, v_rowSpan props))))
      else if isKind IMAGE node then
        Ret (Some (InternalImage (normalizeImageSrc (v_src props))
                     normalizedCoordinates (nullish (get "sizing" style) VNull)))
      else if isKind SHAPE node then
        do text <- match v_children props with
                   | TNoise NUndefined => Ret None
                   | children => do ps <- normalizeText children; Ret (Some ps)
                   end;
        do backgroundColor <- normalizeComplexOrNull (get "backgroundColor" style);
        do borderColor <- normalizeColorOrNull (get "borderColor" style);
        Ret (Some (InternalShape (v_type props) text normalizedCoordinates
                     backgroundColor borderColor
                     (nullish (get "borderWidth" style) VNull)))
      else if isKind TABLE node then
        do normalized <-
          mapM (mapM (fun cell : string + Node =>
                        match cell with
                        | inl s => Ret (Some (stringCell s))
                        | inr cell' => normalizeSlideObject cell'
                        end))
               (v_rows props);
        do borderColor <- normalizeColorOrNull (get "borderColor" style);
        Ret (Some (InternalTable normalized normalizedCoordinates borderColor
                     (nullish (get "borderWidth" style) VNull)
                     (nullish (get "margin" style) VNull)))
      else Throw (Error "unknown slide object")
  end.
Proof. by destruct node. Qed.

Lemma normalizeSlideObject_not_null (node : Node) :
  normalizeSlideObject node <> Ret None.
Proof.
  rewrite normalizeSlideObject_unfold.
  destruct (v_style (nodeProps node)) as [style|]; [|done]. cbv zeta.
  repeat (first
    [ progress (apply bind_not_null; intros ?)
    | match goal with |- (if ?c then _ else _) <> _ => destruct c end
    | discriminate ]).
Qed.

(** C3, amended: a visual node of any kind, [line] too, that has no
    [style] makes the normalization throw the [TypeError] that names the
    type of the node; a [line] that has a [style] gets its color and its
    width from it and nothing else: its coordinates are not looked at. *)
Theorem normalizeSlideObject_style (node : Node) :
  match v_style (nodeProps node) with
  | None =>
      normalizeSlideObject node =
      Throw (TypeError ("A " +:+ tagOf (nodeType node) +:+
                        " object is missing style attribute"))
  | Some style =>
      if isKind LINE node then
        normalizeSlideObject node =
        do color <- normalizeColorOrNull (get "color" style);
        Ret (Some (InternalLine (v_x1 (nodeProps node)) (v_y1 (nodeProps node))
                     (v_x2 (nodeProps node)) (v_y2 (nodeProps node))
                     color (nullish (get "width" style) VNull)))
      else True
  end.
Proof.
  rewrite normalizeSlideObject_unfold.
  destruct (v_style (nodeProps node)) as [style|]; [|done].
  cbv zeta. by destruct (isKind LINE node).
Qed.

Lemma mapM_total {A B} (f : A -> outcome B) (g : A -> B) (l : list A) :
  (forall a, f a = Ret (g a)) -> mapM f l = Ret (map g l).
Proof.
  intros Hf. induction l as [|a l IH]; simpl; [done|]. by rewrite Hf, IH.
Qed.

Lemma mapM_map {A B C} (f : B -> outcome C) (g : A -> B) (l : list A) :
  mapM f (map g l) = mapM (fun a => f (g a)) l.
Proof. induction l as [|a l IH]; simpl; [done|]. by rewrite IH. Qed.

(** A table of strings alone normalizes as soon as its style does: every
    cell gives its text, in its place. *)
Lemma table_of_strings (node : Node) (style : Style) (rows : list (list string))
    (nx ny nw nh : value) (borderColor : option HexColor) :
  nodeType node = TABLE ->
  v_style (nodeProps node) = Some style ->
  v_rows (nodeProps node) = map (map inl) rows ->
  normalizeCoordinate (get "x" style) 0%Q = Ret nx ->
  normalizeCoordinate (get "y" style) 0%Q = Ret ny ->
  normalizeCoordinate (get "w" style) 1%Q = Ret nw ->
  normalizeCoordinate (get "h" style) 1%Q = Ret nh ->
  normalizeColorOrNull (get "borderColor" style) = Ret borderColor ->
  normalizeSlideObject node =
  Ret (Some (InternalTable
               (map (map (fun s => Some (stringCell s))) rows)
               {| x := nx; y := ny; w := nw; h := nh |} borderColor
               (nullish (get "borderWidth" style) VNull)
               (nullish (get "margin" style) VNull))).
Proof.
  intros Ht Hs Hr Hx Hy Hw Hh Hb. rewrite normalizeSlideObject_unfold, Hs.
  cbv zeta. unfold isKind. rewrite Ht, Hx, Hy, Hw, Hh, Hr.
  cbn [bool_decide decide_rel NodeTypes_eq_dec bind].
  rewrite mapM_map.
  rewrite (mapM_total _ (map (fun s => Some (stringCell s)))).
  - cbn [bind]. by rewrite Hb.
  - intros row. rewrite mapM_map. by apply mapM_total.
Qed.

(** C7: when a [table] element normalizes, the result is a table whose
    rows are the rows of the element in their order, each with its cells in
    their order: a cell that is a bare string [s] has become the text of
    kind [text] whose style is [x = 0], [y = 0], [w = 0], [h = 0] and
    [color = null] and whose one run has the text [s] and an empty style,
    and a cell that is an element has become its own normalization. *)
Theorem table_cells (node : Node) (out : option InternalSlideObject) :
  nodeType node = TABLE ->
  normalizeSlideObject node = Ret out ->
  exists rows' coordinates borderColor borderWidth margin,
    out = Some (InternalTable rows' coordinates borderColor borderWidth margin) /\
    Forall2 (Forall2 (normalizesTo normalizeSlideObject))
            (v_rows (nodeProps node)) rows'.
Proof.
  intros Ht. rewrite normalizeSlideObject_unfold.
  destruct (v_style (nodeProps node)) as [style|]; [|done]. cbv zeta.
  unfold isKind. rewrite Ht. simpl.
  intros H.
  apply bind_Ret_inv in H as (nx & _ & H).
  apply bind_Ret_inv in H as (ny & _ & H).
  apply bind_Ret_inv in H as (nw & _ & H).
  apply bind_Ret_inv in H as (nh & _ & H).
  apply bind_Ret_inv in H as (rows' & Hrows & H).
  apply bind_Ret_inv in H as (bc & _ & [= <-]).
  do 5 eexists. split; [reflexivity|].
  apply mapM_Ret in Hrows.
  eapply Forall2_impl; [exact Hrows|]. intros row row' Hrow. simpl in Hrow.
  apply mapM_Ret in Hrow.
  eapply Forall2_impl; [exact Hrow|]. intros cell cell' Hcell. simpl in Hcell.
  destruct cell as [s|cell]; simpl; [by injection Hcell as <-|done].
Qed.

Lemma filterPresent_spec {A} (l : list (option A)) :
  map Some (filterPresent l) = List.filter isPresent l.
Proof.
  induction l as [|[a|] l IH]; simpl; [done| |done]. by rewrite IH.
Qed.

Lemma filterPresent_all {A} (l : list (option A)) :
  Forall (fun o => o <> None) l -> map Some (filterPresent l) = l.
Proof.
  induction 1 as [|o l Ho _ IH]; simpl; [done|].
  destruct o as [a|]; [|done]. simpl. by rewrite IH.
Qed.

(** C10: [normalizeSlideObject] never returns [null]: it throws or returns
    a slide object.  So the objects of a slide, and of a master slide, are
    the normalizations of the flattened children, one for each in their
    order: the filter on [null] removes none. *)
Theorem objects_one_per_child (children : Children Node)
    (objects : list InternalSlideObject) :
  normalizeObjects children = Ret objects ->
  (forall node, normalizeSlideObject node <> Ret None) /\
  mapM normalizeSlideObject (flattenChildren children) = Ret (map Some objects) /\
  List.length objects = List.length (flattenChildren children) /\
  (forall el out, normalizeSlide el = Ret out ->
     normalizeObjects (s_children (s_props el)) = Ret (is_objects out)) /\
  (forall el out, normalizeMasterSlide el = Ret out ->
     normalizeObjects (s_children (s_props el)) = Ret (ms_objects out)).
Proof.
  intros H. split; [exact normalizeSlideObject_not_null|].
  assert (Hmap : mapM normalizeSlideObject (flattenChildren children)
                 = Ret (map Some objects)).
  { unfold normalizeObjects in H. destruct (hasChildren children) eqn:Hc.
    - apply bind_Ret_inv in H as (os & Hos & [= <-]).
      rewrite filterPresent_all; [done|].
      apply mapM_Ret in Hos. clear -Hos.
      induction Hos as [|node o l l' Ho _ IH]; constructor; [|done].
      intros ->. by apply normalizeSlideObject_not_null in Ho.
    - injection H as <-. by destruct children as [| |[| |[]]]. }
  split; [done|]. split.
  - apply mapM_length in Hmap. by rewrite length_map in Hmap.
  - split.
    + intros el out Hs. unfold normalizeSlide in Hs.
      apply bind_Ret_inv in Hs as (bg & _ & Hs).
      apply bind_Ret_inv in Hs as (os & Hos & [= <-]). done.
    + intros el out Hs. unfold normalizeMasterSlide in Hs.
      apply bind_Ret_inv in Hs as (bg & _ & Hs).
      apply bind_Ret_inv in Hs as (os & Hos & [= <-]). done.
Qed.

(** ** Properties of the presentation *)

Lemma fromEntries_lookup {A} (key : A -> string) (l : list A)
    (o : gmap string A) (k : string) :
  fold_left (fun o kv => <[kv.1 := kv.2]> o) (map (fun a => (key a, a)) l) o !! k =
  match last (List.filter (fun a => String.eqb (key a) k) l) with
  | Some a => Some a
  | None => o !! k
  end.
Proof.
  revert o. induction l as [|a l IH]; intros o; simpl; [done|].
  rewrite IH. destruct (String.eqb_spec (key a) k) as [->|Hne].
  - rewrite last_cons.
    destruct (last (List.filter (fun a => String.eqb (key a) k) l)); [done|].
    by rewrite lookup_insert_eq.
  - destruct (last (List.filter (fun a => String.eqb (key a) k) l)); [done|].
    by rewrite lookup_insert_ne.
Qed.

Lemma flattenChildren_nodes {E} (l : list E) :
  flattenChildren (ChArray (map ChNode l)) = l.
Proof. simpl. induction l as [|e l IH]; simpl; [done|]. by rewrite IH. Qed.

Lemma filter_filter_weak {A} (p q : A -> bool) (l : list A) :
  (forall a, p a = true -> q a = true) ->
  List.filter p (List.filter q l) = List.filter p l.
Proof.
  intros Hpq. induction l as [|a l IH]; simpl; [done|].
  destruct (q a) eqn:Hq; simpl.
  - by rewrite IH.
  - destruct (p a) eqn:Hp; [|done]. apply Hpq in Hp. congruence.
Qed.

Lemma normalizeJsx_slidesOnly (props : PresentationProps) :
  normalizeJsx (slidesOnly props) = normalizeJsx props.
Proof.
  unfold normalizeJsx at 1. unfold slidesOnly at 1. cbn [p_children hasChildren].
  unfold slidesOnly. cbn [p_children layout author company revision subject title].
  rewrite flattenChildren_nodes.
  rewrite !filter_filter_weak
    by (intros a Ha; rewrite Ha; auto using orb_true_r).
  unfold normalizeJsx. destruct (hasChildren (p_children props)) eqn:Hc; [done|].
  by destruct (p_children props) as [| |[| |[]]].
Qed.

(** C6: when the presentation normalizes, its slides are the
    normalizations of the children of type [slide] in their order; its
    master slides are a mapping by name in which a name stands for the
    normalization of the last child of type [master-slide] that has this
    name, so that of two master slides of one name the later one is kept,
    and for nothing when no master slide has it; and the children of any
    other type count for nothing: without them the result is the same. *)
Theorem normalizeJsx_children (props : PresentationProps)
    (out : InternalPresentation) :
  normalizeJsx props = Ret out ->
  mapM normalizeSlide
       (List.filter (hasType SLIDE) (flattenChildren (p_children props)))
    = Ret (slides out) /\
  (exists masters : list InternalMasterSlide,
     mapM normalizeMasterSlide
          (List.filter (hasType MASTER_SLIDE) (flattenChildren (p_children props)))
       = Ret masters /\
     forall name : string,
       masterSlides out !! name =
       last (List.filter (fun m => String.eqb (ms_name m) name) masters)) /\
  normalizeJsx (slidesOnly props) = Ret out.
Proof.
  intros H. rewrite normalizeJsx_slidesOnly. split; [|split; [|done]].
  - unfold normalizeJsx in H. destruct (hasChildren (p_children props)) eqn:Hc.
    + apply bind_Ret_inv in H as (ss & Hss & H).
      apply bind_Ret_inv in H as (ms & Hms & [= <-]). done.
    + injection H as <-. by destruct (p_children props) as [| |[| |[]]].
  - unfold normalizeJsx in H. destruct (hasChildren (p_children props)) eqn:Hc.
    + apply bind_Ret_inv in H as (ss & Hss & H).
      apply bind_Ret_inv in H as (ms & Hms & [= <-]).
      exists ms. split; [done|]. intros name. simpl. unfold fromEntries.
      rewrite fromEntries_lookup.
      by destruct (last (List.filter (fun m => String.eqb (ms_name m) name) ms)).
    + injection H as <-. exists []. split.
      * by destruct (p_children props) as [| |[| |[]]].
      * intros name. simpl. apply lookup_empty.
Qed.

(** ** Further properties of the colors and the coordinates *)

(** X1: the two color normalizers throw on the same inputs, those that the
    parser rejects, and with the same exception; on any other input they
    agree on the six digits: what [normalizeHexColor] returns is what
    [normalizeHexOrComplexColor] returns, alone or as the color of its solid
    record.  [normalizeHexColor] ignores the opacity. *)
Theorem color_normalizers_agree (colorString : value) :
  match Color colorString with
  | None =>
      normalizeHexColor colorString = Throw (ColorParseError colorString) /\
      normalizeHexOrComplexColor colorString = Throw (ColorParseError colorString)
  | Some clr =>
      exists hexColor,
        normalizeHexColor colorString = Ret hexColor /\
        (normalizeHexOrComplexColor colorString = Ret (Hex hexColor) \/
         exists a, normalizeHexOrComplexColor colorString =
                   Ret (Complex (mkComplexColor "solid" hexColor a)))
  end.
Proof.
  unfold normalizeHexColor, normalizeHexOrComplexColor, parseColor.
  destruct (Color colorString) as [clr|]; simpl; [|done].
  eexists. split; [reflexivity|].
  destruct (Qeq_bool (alpha clr) 1); eauto.
Qed.

(** X20: for a color that the parser accepts and whose [hex()] is a hash
    sign and six hexadecimal digits, [normalizeHexColor] returns six
    characters, each an upper case hexadecimal digit, with no hash sign. *)
Theorem normalizeHexColor_shape (colorString : value) (clr : ColorT) :
  Color colorString = Some clr ->
  hex_wf clr ->
  exists hexColor,
    normalizeHexColor colorString = Ret hexColor /\
    String.length hexColor = 6%nat /\
    allChars isUpperHex hexColor = true.
Proof.
  intros Hparse (hx & Hhex & Hlen & Hdigits).
  unfold normalizeHexColor, parseColor. rewrite Hparse. simpl.
  rewrite Hhex. simpl. eexists. split; [reflexivity|].
  split; [by rewrite toUpperCase_length|by apply toUpperCase_hex].
Qed.

(** X2: the transparency falls as the opacity rises: of two colors that
    normalize to solid records, the one with the larger opacity has the
    smaller or equal alpha, the alpha being
    [100 - Math.round(a * 100)] with the product of binary64, whose
    rounding is monotone. *)
Theorem transparency_antitone (c1 c2 : value) (clr1 clr2 : ColorT)
    (k1 k2 : ComplexColor) :
  Color c1 = Some clr1 -> Color c2 = Some clr2 ->
  (0 <= alpha clr1)%Q -> (alpha clr1 <= alpha clr2)%Q -> (alpha clr2 <= 1)%Q ->
  normalizeHexOrComplexColor c1 = Ret (Complex k1) ->
  normalizeHexOrComplexColor c2 = Ret (Complex k2) ->
  cc_alpha k1 = inject_Z (100 - Math_round (round64 (alpha clr1 * 100))) /\
  cc_alpha k2 = inject_Z (100 - Math_round (round64 (alpha clr2 * 100))) /\
  (cc_alpha k2 <= cc_alpha k1)%Q.
Proof.
  unfold normalizeHexOrComplexColor, parseColor. intros -> -> _ Hle _.
  cbn [bind].
  destruct (Qeq_bool (alpha clr1) 1); [done|].
  destruct (Qeq_bool (alpha clr2) 1); [done|].
  intros [= <-] [= <-]. cbn [cc_alpha].
  split; [done|]. split; [done|].
  rewrite <- Zle_Qle. exact (transparency_falls _ _ Hle).
Qed.

Lemma normalizeCoordinate_Ret (x : value) (_default : number) (v : value) :
  normalizeCoordinate x _default = Ret v -> isPosition v = true.
Proof.
  destruct x as [| | |n|s|]; simpl; try (by intros [= <-]).
  destruct (PERCENTAGE_REGEXP_test s) eqn:Hs; simpl; [|done].
  by intros [= <-].
Qed.

Lemma normalizeCoordinate_Throw (x : value) (_default : number) (e : exn) :
  normalizeCoordinate x _default = Throw e ->
  exists s, x = VStr s /\ PERCENTAGE_REGEXP_test s = false /\ e = invalid_position s.
Proof.
  destruct x as [| | |n|s|]; simpl; try done.
  destruct (PERCENTAGE_REGEXP_test s) eqn:Hs; simpl; [done|].
  intros [= <-]. eauto.
Qed.

Lemma normalizeCoordinate_position (v : value) (_default : number) :
  isPosition v = true -> normalizeCoordinate v _default = Ret v.
Proof.
  destruct v as [| | |n|s|]; simpl; try done. by intros ->.
Qed.

(** X3: what [normalizeCoordinate] returns is a canonical position, a
    number or a string of digits and a percent sign, and normalizing it
    again, with any default, returns it as it is. *)
Theorem normalizeCoordinate_canonical (x : value) (_default : number) (v : value) :
  normalizeCoordinate x _default = Ret v ->
  isPosition v = true /\
  forall d, normalizeCoordinate v d = Ret v.
Proof.
  intros H. apply normalizeCoordinate_Ret in H.
  split; [done|]. intros d. by apply normalizeCoordinate_position.
Qed.

(** ** Further properties of [normalizeText] *)

Lemma TextChild_deep_ind (P : TextChild -> Prop) (Q : TextNode -> Prop) :
  (forall e, Q e -> P (TNode e)) ->
  (forall l, Forall P l -> P (TArray l)) ->
  (forall v, P (TNoise v)) ->
  (forall s, Q (TString s)) ->
  (forall n, Q (TNumber n)) ->
  (forall props, Q (TextLink props)) ->
  (forall children props, P children -> Q (TextBullet children props)) ->
  forall t, P t.
Proof.
  intros Hnode Harray Hnoise Hstring Hnumber Hlink Hbullet. fix IH 1.
  intros [e|l|v].
  - apply Hnode. destruct e as [s|n|props|children props];
      [apply Hstring|apply Hnumber|apply Hlink|apply Hbullet, IH].
  - apply Harray. induction l as [|t l IHl]; constructor; [apply IH|apply IHl].
  - apply Hnoise.
Qed.

Lemma signature_app (l1 l2 : list InternalTextPart) :
  signature (l1 ++ l2) = signature l1 ++ signature l2.
Proof. apply map_app. Qed.

Lemma signature_mapi_from rtl lng b ps n (l : list InternalTextPart) (k : nat) :
  signature (mapi_from (bulletPart rtl lng b ps n) l k) = signature l.
Proof.
  revert k. induction l as [|a l IH]; intros k; simpl; [done|].
  unfold signature in IH. by rewrite IH.
Qed.

Lemma normalizeStyleColor_Throw (style : option Style) (e : exn) :
  normalizeStyleColor style = Throw e -> exists v, e = ColorParseError v.
Proof.
  unfold normalizeStyleColor, normalizeHexColor, parseColor.
  destruct (truthy _); [|done].
  destruct (Color _); simpl; [done|]. intros [= <-]. eauto.
Qed.

Lemma normalizeStyleColor_parses (style : option Style) :
  colorParses style = true -> exists c, normalizeStyleColor style = Ret c.
Proof.
  unfold colorParses, normalizeStyleColor, normalizeHexColor, parseColor.
  destruct (truthy _); simpl; [|eauto].
  destruct (Color _); simpl; [eauto|done].
Qed.

(** The runs of the flattened nodes of [t] and the runs of [t] have the
    texts and the links of the leaves of [t]. *)
Lemma leaves_of_runs (t : TextChild) :
  (forall acc out,
     reduce textCallback (flattenChildren (asChildren t)) acc = Ret out ->
     signature out = signature acc ++ leaves t) /\
  (forall out, normalizeText t = Ret out -> signature out = leaves t).
Proof.
  induction t as [e He|l IH|v|s|n|props|children props IHc]
    using TextChild_deep_ind
    with (Q := fun e => forall acc out,
                 textCallback acc e = Ret out ->
                 signature out = signature acc ++ nodeLeaves e).
  - split.
    + intros acc out. simpl. intros H.
      apply bind_Ret_inv in H as (out' & H & [= <-]). by apply He.
    + intros out. rewrite normalizeText_unfold.
      destruct (isReactElementOrElementArray (TNode e)).
      * simpl. intros H. apply bind_Ret_inv in H as (out' & H & [= <-]).
        by apply He in H.
      * destruct e; try done; by intros [= <-].
  - assert (H1 : forall acc out,
        reduce textCallback (flattenChildren (asChildren (TArray l))) acc = Ret out ->
        signature out = signature acc ++ leaves (TArray l)).
    { simpl. induction IH as [|t l [Ht _] _ IHl]; intros acc out; simpl.
      - intros [= <-]. by rewrite app_nil_r.
      - rewrite reduce_app. intros H.
        apply bind_Ret_inv in H as (mid & Hmid & H).
        apply Ht in Hmid. apply IHl in H. rewrite H, Hmid. by rewrite app_assoc. }
    split; [exact H1|].
    intros out. rewrite normalizeText_unfold.
    destruct (isReactElementOrElementArray (TArray l)); [apply (H1 [])|].
    clear H1.
    change (leaves (TArray l)) with (signature [] ++ leaves (TArray l)).
    generalize (@nil InternalTextPart) as acc. revert out. simpl.
    induction IH as [|t l [_ Ht] _ IHl]; intros out acc; simpl.
    + intros [= <-]. by rewrite app_nil_r.
    + intros H. apply bind_Ret_inv in H as (mid & Hmid & H).
      apply bind_Ret_inv in Hmid as (r & Hr & [= <-]).
      apply IHl in H. rewrite H, signature_app, (Ht r Hr). by rewrite app_assoc.
  - split.
    + intros acc out [= <-]. by rewrite app_nil_r.
    + intros out. rewrite normalizeText_unfold.
      destruct (isReactElementOrElementArray (TNoise v)); [|done].
      by intros [= <-].
  - intros acc out [= <-]. by rewrite signature_app.
  - intros acc out [= <-]. by rewrite signature_app.
  - intros acc out. simpl. intros H.
    apply bind_Ret_inv in H as (c & _ & [= <-]). by rewrite signature_app.
  - intros acc out. simpl. intros H.
    apply bind_Ret_inv in H as (nc & Hnc & H).
    apply bind_Ret_inv in H as (pc & _ & [= <-]).
    rewrite signature_app. unfold mapi. rewrite signature_mapi_from.
    by rewrite (proj2 IHc nc Hnc).
Qed.

(** X4: the runs that [normalizeText] returns are the leaves of its input
    in their order: one run for each string, number and link, at any depth
    of arrays and of bullets, with the text of the leaf and, for a link, its
    target.  A bullet adds no run, drops none and moves none; noise gives
    no run. *)
Theorem normalizeText_leaves (t : TextChild) (out : list InternalTextPart) :
  normalizeText t = Ret out ->
  map (fun part => (text part, link part)) out = leaves t /\
  List.length out = List.length (leaves t).
Proof.
  intros H. apply leaves_of_runs in H. split; [exact H|].
  rewrite <- H. unfold signature. by rewrite length_map.
Qed.

Lemma mapM_Forall {A B} (f : A -> outcome B) (g : A -> B) (l : list A) :
  Forall (fun a => f a = Ret (g a)) l -> mapM f l = Ret (map g l).
Proof. induction 1 as [|a l Ha _ IH]; simpl; [done|]. by rewrite Ha, IH. Qed.

Lemma plain_runs (t : TextChild) :
  onlyPlain t = true ->
  (forall acc,
     reduce textCallback (flattenChildren (asChildren t)) acc =
     Ret (acc ++ map (fun leaf => plainPart leaf.1) (leaves t))) /\
  normalizeText t = Ret (map (fun leaf => plainPart leaf.1) (leaves t)).
Proof.
  induction t as [e|l IH|v] using TextChild_array_ind; intros Hp.
  - destruct e as [s|n|props|children props]; try discriminate;
      (split; [done|]); rewrite normalizeText_unfold;
      by destruct (isReactElementOrElementArray _).
  - simpl in Hp. rewrite forallb_forall in Hp.
    assert (Hl : Forall (fun t =>
        (forall acc,
           reduce textCallback (flattenChildren (asChildren t)) acc =
           Ret (acc ++ map (fun leaf => plainPart leaf.1) (leaves t))) /\
        normalizeText t = Ret (map (fun leaf => plainPart leaf.1) (leaves t))) l).
    { rewrite List.Forall_forall in IH |- *. intros t Ht. apply IH; auto. }
    clear IH Hp.
    assert (H1 : forall acc,
        reduce textCallback (flattenChildren (asChildren (TArray l))) acc =
        Ret (acc ++ map (fun leaf => plainPart leaf.1) (leaves (TArray l)))).
    { simpl. induction Hl as [|t l [Ht _] _ IHl]; intros acc; simpl.
      - by rewrite app_nil_r.
      - rewrite reduce_app, Ht. simpl. rewrite IHl, map_app. by rewrite app_assoc. }
    split; [exact H1|].
    rewrite normalizeText_unfold.
    destruct (isReactElementOrElementArray (TArray l)); [apply (H1 [])|].
    rewrite reduce_concat.
    rewrite (mapM_Forall _ (fun t => map (fun leaf => plainPart leaf.1) (leaves t))).
    + simpl. by rewrite concat_map, map_map.
    + eapply Forall_impl; [exact Hl|]. by intros t [_ Ht].
  - discriminate.
Qed.

(** X5: a text made of strings, of numbers and of arrays of them, at any
    depth, never throws: it gives one run for each string and number in
    their order, the run that has this text, an empty style and no other
    key.  This holds whatever the type guard answers. *)
Theorem normalizeText_plain (t : TextChild) :
  onlyPlain t = true ->
  normalizeText t =
    Ret (map (fun leaf : string * field Link =>
                {| text := leaf.1; style := ∅; rtlMode := NoKey;
                   lang := NoKey; link := NoKey; bullet := NoKey;
                   breakLine := NoKey |})
             (leaves t)) /\
  (forall s, leaves (TNode (TString s)) = [(s, NoKey)]) /\
  (forall n, leaves (TNode (TNumber n)) = [(Number_toString n, NoKey)]) /\
  (forall l, leaves (TArray l) = concat (map leaves l)).
Proof.
  intros Hp. split; [exact (proj2 (plain_runs t Hp))|].
  split; [done|]. split; [done|]. intros l. reflexivity.
Qed.

Lemma bind_Throw_inv {A B} (m : outcome A) (k : A -> outcome B) (e : exn) :
  bind m k = Throw e -> m = Throw e \/ exists a, m = Ret a /\ k a = Throw e.
Proof. destruct m as [a|e']; simpl; [eauto|]. intros [= <-]. by left. Qed.

Lemma text_throws (t : TextChild) :
  (forall acc e,
     reduce textCallback (flattenChildren (asChildren t)) acc = Throw e ->
     textError e) /\
  (forall e, normalizeText t = Throw e -> textError e).
Proof.
  induction t as [n Hn|l IH|v|s|n|props|children props IHc]
    using TextChild_deep_ind
    with (Q := fun n => forall acc e, textCallback acc n = Throw e -> textError e).
  - split.
    + intros acc e. simpl. intros H.
      apply bind_Throw_inv in H as [H|(a & _ & [=])]. by eapply Hn.
    + intros e. rewrite normalizeText_unfold.
      destruct (isReactElementOrElementArray (TNode n)).
      * simpl. intros H.
        apply bind_Throw_inv in H as [H|(a & _ & [=])]. by eapply Hn.
      * destruct n; try done; intros [= <-]; by left.
  - assert (H1 : forall acc e,
        reduce textCallback (flattenChildren (asChildren (TArray l))) acc = Throw e ->
        textError e).
    { simpl. induction IH as [|t l [Ht _] _ IHl]; intros acc e; simpl; [done|].
      rewrite reduce_app. intros H.
      apply bind_Throw_inv in H as [H|(a & _ & H)]; [by eapply Ht|by eapply IHl]. }
    split; [exact H1|].
    intros e. rewrite normalizeText_unfold.
    destruct (isReactElementOrElementArray (TArray l)); [apply (H1 [])|].
    clear H1. generalize (@nil InternalTextPart) as acc.
    induction IH as [|t l [_ Ht] _ IHl]; intros acc; simpl; [done|].
    intros H. apply bind_Throw_inv in H as [H|(a & _ & H)]; [|by eapply IHl].
    apply bind_Throw_inv in H as [H|(a & _ & [=])]. by apply Ht.
  - split; [done|].
    intros e. rewrite normalizeText_unfold.
    destruct (isReactElementOrElementArray (TNoise v)); [done|].
    intros [= <-]. by left.
  - done.
  - done.
  - intros acc e. simpl. intros H.
    apply bind_Throw_inv in H as [H|(a & _ & [=])].
    right. by eapply normalizeStyleColor_Throw.
  - intros acc e. simpl. intros H.
    apply bind_Throw_inv in H as [H|(nc & _ & H)]; [by apply IHc|].
    apply bind_Throw_inv in H as [H|(a & _ & [=])].
    right. by eapply normalizeStyleColor_Throw.
Qed.

(** X6: [normalizeText] throws nothing but the [TypeError] on an invalid
    [TextChild] and the exception of the color parser. *)
Theorem normalizeText_throws (t : TextChild) (e : exn) :
  normalizeText t = Throw e ->
  e = TypeError "Invalid TextChild found; only strings/numbers/arrays of them are accepted" \/
  exists v, e = ColorParseError v.
Proof. intros H. by apply text_throws in H. Qed.

Lemma textCallback_outside acc e out :
  notBullet e = true ->
  textCallback acc e = Ret out ->
  Forall (fun r => bullet r = NoKey /\ breakLine r = NoKey) acc ->
  Forall (fun r => bullet r = NoKey /\ breakLine r = NoKey) out.
Proof.
  intros Hb Hr Hacc. destruct e as [s|n|props|children props]; simpl in *;
    try discriminate.
  - injection Hr as <-. apply Forall_app. by repeat constructor.
  - injection Hr as <-. apply Forall_app. by repeat constructor.
  - destruct (normalizeStyleColor (tl_style props)); simpl in Hr; [|done].
    injection Hr as <-. apply Forall_app. by repeat constructor.
Qed.

Lemma reduce_outside (l : list TextNode) acc out :
  Forall (fun e => notBullet e = true) l ->
  reduce textCallback l acc = Ret out ->
  Forall (fun r => bullet r = NoKey /\ breakLine r = NoKey) acc ->
  Forall (fun r => bullet r = NoKey /\ breakLine r = NoKey) out.
Proof.
  intros Hl. revert acc. induction Hl as [|e l He _ IH]; intros acc Hr Hacc.
  - simpl in Hr. by injection Hr as <-.
  - simpl in Hr. apply bind_Ret_inv in Hr as (acc' & H1 & H2).
    eapply IH; [exact H2|]. eapply textCallback_outside; eauto.
Qed.

(** X7: outside a bullet no run has a [breakLine] or a [bullet]: when the
    input holds no [text-bullet] element, no run that [normalizeText]
    returns owns either key. *)
Theorem normalizeText_outside_bullets (t : TextChild) (out : list InternalTextPart) :
  noBullet t = true ->
  normalizeText t = Ret out ->
  Forall (fun r => bullet r = NoKey /\ breakLine r = NoKey) out.
Proof.
  revert out.
  induction t as [e|l IH|v] using TextChild_array_ind; intros out Hn;
    rewrite normalizeText_unfold;
    (destruct (isReactElementOrElementArray _);
     [intros Hr; eapply reduce_outside;
        [by apply noBullet_flattened|exact Hr|constructor]|]).
  - destruct e; try discriminate; intros [= <-]; by repeat constructor.
  - simpl in Hn. rewrite forallb_forall in Hn.
    assert (Hacc : Forall (fun r => bullet r = NoKey /\ breakLine r = NoKey)
                     (@nil InternalTextPart)) by constructor.
    revert Hacc. generalize (@nil InternalTextPart) as acc.
    induction IH as [|t l Ht _ IHl]; intros acc Hacc Hr; simpl in Hr.
    + by injection Hr as <-.
    + apply bind_Ret_inv in Hr as (acc' & H1 & H2).
      apply bind_Ret_inv in H1 as (r & H1 & [= <-]).
      eapply IHl; [|apply Forall_app; split; [exact Hacc|]|exact H2].
      * intros t' Ht'. apply Hn. by right.
      * eapply Ht; [|exact H1]. apply Hn. by left.
  - discriminate.
Qed.

Section GuardMore.

Hypothesis guard_elements :
  forall e, isValidElement e = true -> isReactElementOrElementArray (TNode e) = true.

Lemma text_normalizes (t : TextChild) :
  textOk t = true ->
  (forall acc, exists out,
     reduce textCallback (flattenChildren (asChildren t)) acc = Ret out) /\
  (exists out, normalizeText t = Ret out).
Proof.
  induction t as [n Hn|l IH|v|s|n|props|children props IHc]
    using TextChild_deep_ind
    with (Q := fun n => nodeOk n = true ->
                 forall acc, exists out, textCallback acc n = Ret out).
  - intros Hok. simpl in Hok. split.
    + intros acc. destruct (Hn Hok acc) as [out Hout]. exists out.
      simpl. by rewrite Hout.
    + rewrite (normalizeText_node guard_elements). apply (Hn Hok).
  - intros Hok. simpl in Hok. rewrite forallb_forall in Hok.
    assert (Hl : Forall (fun t =>
        (forall acc, exists out,
           reduce textCallback (flattenChildren (asChildren t)) acc = Ret out) /\
        (exists out, normalizeText t = Ret out)) l).
    { rewrite List.Forall_forall in IH |- *. intros t Ht. apply IH; auto. }
    clear IH Hok.
    assert (H1 : forall acc, exists out,
        reduce textCallback (flattenChildren (asChildren (TArray l))) acc = Ret out).
    { simpl. induction Hl as [|t l [Ht _] _ IHl]; intros acc; simpl; [eauto|].
      rewrite reduce_app. destruct (Ht acc) as [mid ->]. simpl. apply IHl. }
    split; [exact H1|].
    rewrite normalizeText_unfold.
    destruct (isReactElementOrElementArray (TArray l)); [apply (H1 [])|].
    clear H1. generalize (@nil InternalTextPart) as acc.
    induction Hl as [|t l [_ [r Ht]] _ IHl]; intros acc; simpl; [eauto|].
    rewrite Ht. simpl. apply IHl.
  - discriminate.
  - intros _ acc. simpl. eauto.
  - intros _ acc. simpl. eauto.
  - intros Hok acc. simpl in *.
    destruct (normalizeStyleColor_parses _ Hok) as [c ->]. simpl. eauto.
  - intros Hok acc. simpl in *. apply andb_prop in Hok as [Hc Hs].
    destruct (proj2 (IHc Hc)) as [nc ->]. simpl.
    destruct (normalizeStyleColor_parses _ Hs) as [c ->]. simpl. eauto.
Qed.

(** X8: [normalizeText] returns, for a guard that accepts a link and a
    bullet, on every input without [null], [undefined] and booleans, at any
    depth and under bullets too, in which every color of a link or of a
    bullet is missing, empty or accepted by the parser. *)
Theorem normalizeText_returns (t : TextChild) :
  textOk t = true ->
  exists out, normalizeText t = Ret out.
Proof. intros Hok. by apply text_normalizes. Qed.

(** X9: every run of a bullet owns the keys [rtlMode], [lang], [bullet]
    and [breakLine], and its style owns the key [color], with a value or
    with [undefined]: so a bullet around the runs of a bullet finds every
    one of these keys taken. *)
Theorem bullet_runs_own_keys (children : TextChild) (props : TextBulletProps)
    (out : list InternalTextPart) :
  normalizeText (TNode (TextBullet children props)) = Ret out ->
  Forall (fun r => rtlMode r <> NoKey /\ lang r <> NoKey /\ bullet r <> NoKey /\
                   breakLine r <> NoKey /\ is_Some (style r !! "color")) out.
Proof.
  rewrite (normalizeText_bullet guard_elements). intros H.
  apply bind_Ret_inv in H as (nc & _ & H).
  apply bind_Ret_inv in H as (pc & _ & [= <-]).
  apply List.Forall_forall. intros r Hr.
  apply list_elem_of_In, list_elem_of_lookup in Hr as [i Hi].
  rewrite mapi_lookup in Hi. apply fmap_Some in Hi as (c & _ & ->). simpl.
  repeat split.
  - destruct (rtlMode c), (tb_rtlMode props); done.
  - destruct (lang c), (tb_lang props); done.
  - destruct (bullet c), (i =? 0)%nat; done.
  - done.
  - unfold spread. rewrite lookup_union.
    rewrite lookup_insert_eq. destruct (style c !! "color"); eauto.
Qed.

End GuardMore.

(** ** Further properties of the slide objects *)

Lemma isKind_false (k : NodeTypes) (node : Node) :
  nodeType node <> k -> isKind k node = false.
Proof. intros H. unfold isKind. by apply bool_decide_eq_false. Qed.

Lemma isKind_true (k : NodeTypes) (node : Node) :
  isKind k node = true -> nodeType node = k.
Proof. unfold isKind. by intros H%bool_decide_eq_true. Qed.

Lemma normalizeTextType_Ret props style c ts :
  normalizeTextType props style c = Ret ts ->
  exists color,
    normalizeColorOrNull (get "color" style) = Ret color /\
    ts.2 =
      <["fontSize" := nullish (get "fontSize" style) (VNum DEFAULT_FONT_SIZE)]>
      (<["fontFace" := nullish (get "fontFace" style) (VStr DEFAULT_FONT_FACE)]>
      (<["color" := colorValue color]> (spreadCoordinates style c))).
Proof.
  unfold normalizeTextType. intros H.
  apply bind_Ret_inv in H as (text & _ & H).
  apply bind_Ret_inv in H as (color & Hc & [= <-]). eauto.
Qed.

Lemma textStyle_positions (st : Style) (c : Coordinates) (v1 v2 v3 : value) :
  let st' := <["fontSize" := v1]> (<["fontFace" := v2]> (<["color" := v3]>
               (spreadCoordinates st c))) in
  [get "x" st'; get "y" st'; get "w" st'; get "h" st'] = [x c; y c; w c; h c].
Proof.
  unfold spreadCoordinates, get. simpl.
  repeat (rewrite ?lookup_insert_eq; rewrite ?lookup_insert_ne by done). done.
Qed.

(** X10: a slide object that is no line has the four positions of a box,
    each a canonical position: the normalization of the [x], [y], [w] and
    [h] of the style of the node, which is [0], [0], [1] and [1] for a key
    that the style does not own. *)
Theorem slide_object_positions (node : Node) (style : Style)
    (o : InternalSlideObject) :
  v_style (nodeProps node) = Some style ->
  nodeType node <> LINE ->
  normalizeSlideObject node = Ret (Some o) ->
  exists nx ny nw nh,
    normalizeCoordinate (get "x" style) 0%Q = Ret nx /\
    normalizeCoordinate (get "y" style) 0%Q = Ret ny /\
    normalizeCoordinate (get "w" style) 1%Q = Ret nw /\
    normalizeCoordinate (get "h" style) 1%Q = Ret nh /\
    positionsOf o = Some [nx; ny; nw; nh] /\
    Forall (fun v => isPosition v = true) [nx; ny; nw; nh] /\
    (style !! "x" = None -> nx = VNum 0%Q) /\
    (style !! "y" = None -> ny = VNum 0%Q) /\
    (style !! "w" = None -> nw = VNum 1%Q) /\
    (style !! "h" = None -> nh = VNum 1%Q).
Proof.
  intros Hs Hline. rewrite normalizeSlideObject_unfold, Hs. cbv zeta.
  rewrite (isKind_false LINE) by done. intros H.
  apply bind_Ret_inv in H as (nx & Hx & H).
  apply bind_Ret_inv in H as (ny & Hy & H).
  apply bind_Ret_inv in H as (nw & Hw & H).
  apply bind_Ret_inv in H as (nh & Hh & H).
  exists nx, ny, nw, nh. do 4 (split; [done|]).
  split; [|split; [|repeat split]].
  - destruct (isKind TEXT node).
    { apply bind_Ret_inv in H as (ts & Hts & [= <-]).
      apply normalizeTextType_Ret in Hts as (color & _ & ->).
      simpl. f_equal. apply textStyle_positions. }
    destruct (isKind TABLE_CELL node).
    { apply bind_Ret_inv in H as (ts & Hts & [= <-]).
      apply normalizeTextType_Ret in Hts as (color & _ & ->).
      simpl. f_equal. apply textStyle_positions. }
    destruct (isKind IMAGE node); [by injection H as <-|].
    destruct (isKind SHAPE node).
    { apply bind_Ret_inv in H as (? & _ & H).
      apply bind_Ret_inv in H as (? & _ & H).
      apply bind_Ret_inv in H as (? & _ & [= <-]). done. }
    destruct (isKind TABLE node); [|done].
    apply bind_Ret_inv in H as (? & _ & H).
    apply bind_Ret_inv in H as (? & _ & [= <-]). done.
  - repeat constructor; by eapply normalizeCoordinate_Ret.
  - intros Hn. unfold get in Hx. rewrite Hn in Hx. by injection Hx as <-.
  - intros Hn. unfold get in Hy. rewrite Hn in Hy. by injection Hy as <-.
  - intros Hn. unfold get in Hw. rewrite Hn in Hw. by injection Hw as <-.
  - intros Hn. unfold get in Hh. rewrite Hn in Hh. by injection Hh as <-.
Qed.

(** X11: the kind of a slide object is the kind of its node: a [text] and
    a [table-cell] give a text, the second with its [colSpan] and [rowSpan]
    and the first without, an [image] an image with its source normalized, a
    [shape] a shape of its type, a [table] a table and a [line] a line with
    its four end points; a node of any other type gives no object. *)
Theorem slide_object_kind (node : Node) (o : InternalSlideObject) :
  normalizeSlideObject node = Ret (Some o) ->
  match nodeType node with
  | TEXT => exists ts st, o = InternalText ts st None
  | TABLE_CELL =>
      exists ts st,
        o = InternalText ts st
              (Some (v_colSpan (nodeProps node), v_rowSpan (nodeProps node)))
  | IMAGE =>
      exists c sizing,
        o = InternalImage (normalizeImageSrc (v_src (nodeProps node))) c sizing
  | SHAPE =>
      exists ts c bg bc bw,
        o = InternalShape (v_type (nodeProps node)) ts c bg bc bw
  | TABLE => exists rows c bc bw mg, o = InternalTable rows c bc bw mg
  | LINE =>
      exists color width,
        o = InternalLine (v_x1 (nodeProps node)) (v_y1 (nodeProps node))
              (v_x2 (nodeProps node)) (v_y2 (nodeProps node)) color width
  | _ => False
  end.
Proof.
  rewrite normalizeSlideObject_unfold.
  destruct (v_style (nodeProps node)) as [style|]; [|done]. cbv zeta.
  unfold isKind. destruct (nodeType node); simpl; intros H;
    repeat match type of H with
    | bind _ _ = Ret _ => apply bind_Ret_inv in H as (? & _ & H)
    end;
    try discriminate; injection H as <-; eauto 10.
Qed.

(** X12: the positions are looked at before the kind: a node that is no
    line and whose [x], [y], [w] or [h] is a string that [/^\d+%$/] rejects
    makes [normalizeSlideObject] throw the [TypeError] of an invalid
    position, whatever its type, known or not, and whatever else it holds. *)
Theorem invalid_position_any_kind (node : Node) (style : Style)
    (k s : string) :
  v_style (nodeProps node) = Some style ->
  nodeType node <> LINE ->
  In k ["x"; "y"; "w"; "h"] ->
  get k style = VStr s ->
  PERCENTAGE_REGEXP_test s = false ->
  exists s', PERCENTAGE_REGEXP_test s' = false /\
             normalizeSlideObject node = Throw (invalid_position s').
Proof.
  intros Hs Hline Hk Hget Hbad. rewrite normalizeSlideObject_unfold, Hs. cbv zeta.
  rewrite (isKind_false LINE) by done.
  assert (Hthrow : forall d, normalizeCoordinate (get k style) d =
                             Throw (invalid_position s)).
  { intros d. rewrite Hget. simpl. by rewrite Hbad. }
  destruct (normalizeCoordinate (get "x" style) 0%Q) as [nx|e] eqn:Hx; simpl.
  2: { apply normalizeCoordinate_Throw in Hx as (s' & _ & ? & ->). eauto. }
  destruct (normalizeCoordinate (get "y" style) 0%Q) as [ny|e] eqn:Hy; simpl.
  2: { apply normalizeCoordinate_Throw in Hy as (s' & _ & ? & ->). eauto. }
  destruct (normalizeCoordinate (get "w" style) 1%Q) as [nw|e] eqn:Hw; simpl.
  2: { apply normalizeCoordinate_Throw in Hw as (s' & _ & ? & ->). eauto. }
  destruct (normalizeCoordinate (get "h" style) 1%Q) as [nh|e] eqn:Hh; simpl.
  2: { apply normalizeCoordinate_Throw in Hh as (s' & _ & ? & ->). eauto. }
  simpl in Hk. destruct Hk as [<-|[<-|[<-|[<-|[]]]]]; congruence.
Qed.

(** X13: the style of a text owns [x], [y], [w], [h], [color], [fontFace]
    and [fontSize]: the color is [null] when the color of the node is
    falsy, and otherwise the result of [normalizeHexColor] on it, the
    digits of [hex()] of the parsed color in upper case, which are six
    upper-case hexadecimal digits when [hex()] is a hash sign and six
    hexadecimal digits; it is never [undefined]; the font face and the
    font size are those of the node, or [Arial] and [18] when the node has
    [null] or [undefined] there; and every other key of the style of the
    node is there as it is, with nothing more. *)
Theorem text_style_complete (node : Node) (style : Style)
    (ts : list InternalTextPart) (st : Style) (span : option (value * value)) :
  v_style (nodeProps node) = Some style ->
  normalizeSlideObject node = Ret (Some (InternalText ts st span)) ->
  (forall k, ~ In k ["x"; "y"; "w"; "h"; "color"; "fontFace"; "fontSize"] ->
             st !! k = style !! k) /\
  st !! "fontFace" = Some (nullish (get "fontFace" style) (VStr "Arial")) /\
  st !! "fontSize" = Some (nullish (get "fontSize" style) (VNum 18%Q)) /\
  (if truthy (get "color" style)
   then exists (clr : ColorT) (hexColor : string),
          Color (get "color" style) = Some clr /\
          hexColor = toUpperCase (substring 1 (hex clr)) /\
          normalizeHexColor (get "color" style) = Ret hexColor /\
          st !! "color" = Some (VStr hexColor) /\
          (hex_wf clr ->
           String.length hexColor = 6%nat /\
           allChars isUpperHex hexColor = true)
   else st !! "color" = Some VNull) /\
  Forall (fun k => exists v, st !! k = Some v /\ isPosition v = true)
         ["x"; "y"; "w"; "h"].
Proof.
  intros Hs. rewrite normalizeSlideObject_unfold, Hs. cbv zeta.
  destruct (isKind LINE node).
  { intros H. by apply bind_Ret_inv in H as (? & _ & [=]). }
  intros H.
  apply bind_Ret_inv in H as (nx & Hx & H).
  apply bind_Ret_inv in H as (ny & Hy & H).
  apply bind_Ret_inv in H as (nw & Hw & H).
  apply bind_Ret_inv in H as (nh & Hh & H).
  apply normalizeCoordinate_Ret in Hx, Hy, Hw, Hh.
  assert (Hts : exists ts',
    normalizeTextType (nodeProps node) style
      {| x := nx; y := ny; w := nw; h := nh |} = Ret ts' /\ st = ts'.2).
  { destruct (isKind TEXT node).
    { apply bind_Ret_inv in H as (ts' & Hts & [= <- <- <-]). eauto. }
    destruct (isKind TABLE_CELL node).
    { apply bind_Ret_inv in H as (ts' & Hts & [= <- <- <-]). eauto. }
    destruct (isKind IMAGE node); [done|].
    destruct (isKind SHAPE node).
    { apply bind_Ret_inv in H as (? & _ & H).
      apply bind_Ret_inv in H as (? & _ & H).
      by apply bind_Ret_inv in H as (? & _ & [=]). }
    destruct (isKind TABLE node); [|done].
    apply bind_Ret_inv in H as (? & _ & H).
    by apply bind_Ret_inv in H as (? & _ & [=]). }
  destruct Hts as (ts' & Hts & ->).
  apply normalizeTextType_Ret in Hts as (color & Hcolor & ->).
  unfold spreadCoordinates. simpl.
  split; [|split; [|split; [|split]]].
  - intros k Hk. simpl in Hk.
    repeat (rewrite lookup_insert_ne by (intros <-; tauto)). done.
  - by rewrite lookup_insert_ne, lookup_insert_eq.
  - by rewrite lookup_insert_eq.
  - rewrite !lookup_insert_ne, lookup_insert_eq by done.
    unfold normalizeColorOrNull in Hcolor.
    destruct (truthy (get "color" style)).
    + apply bind_Ret_inv in Hcolor as (hexColor & Hhex & [= <-]).
      pose proof Hhex as Hhex'. unfold normalizeHexColor, parseColor in Hhex'.
      destruct (Color (get "color" style)) as [clr|]; [|done].
      cbn [bind] in Hhex'. injection Hhex' as <-.
      exists clr, (toUpperCase (substring 1 (hex clr))).
      split; [done|]. split; [done|]. split; [exact Hhex|]. split; [done|].
      intros (hx & Hhx & Hlen & Hdigits). rewrite Hhx. simpl substring.
      split; [by rewrite toUpperCase_length|by apply toUpperCase_hex].
    + by injection Hcolor as <-.
  - repeat constructor; eexists;
      (split; [repeat (rewrite ?lookup_insert_eq;
                         rewrite ?lookup_insert_ne by done); reflexivity|done]).
Qed.

Lemma Node_rows_ind (P : Node -> Prop) :
  (forall type props,
     Forall (Forall (fun cell : string + Node =>
                       match cell with
                       | inl _ => True
                       | inr cell' => P cell'
                       end)) (v_rows props) ->
     P (Element type props)) ->
  forall node, P node.
Proof.
  intros Hrows. fix IH 1. intros [type props]. apply Hrows.
  destruct props as [? ? ? ? ? ? ? ? ? ? rows]. simpl.
  induction rows as [|row rows IHrows]; constructor; [|exact IHrows].
  induction row as [|cell row IHrow]; constructor; [|exact IHrow].
  destruct cell as [s|cell]; [exact I|apply IH].
Qed.

Lemma mapM_Throw {A B} (f : A -> outcome B) (l : list A) (e : exn) :
  mapM f l = Throw e <->
  exists l1 a l2 bs, l = l1 ++ a :: l2 /\ mapM f l1 = Ret bs /\ f a = Throw e.
Proof.
  induction l as [|a l IH]; simpl.
  - split; [done|]. intros ([|? ?] & ? & ? & ? & ? & _); discriminate.
  - split.
    + intros H. apply bind_Throw_inv in H as [H|(b & Hb & H)].
      * exists [], a, l, []. done.
      * apply bind_Throw_inv in H as [H|(bs & _ & [=])].
        apply IH in H as (l1 & a' & l2 & bs & -> & H1 & H2).
        exists (a :: l1), a', l2, (b :: bs). simpl. by rewrite Hb, H1.
    + intros ([|a0 l1] & a' & l2 & bs & Heq & H1 & H2); simpl in *.
      * injection Heq as <- <-. by rewrite H2.
      * injection Heq as <- ->.
        apply bind_Ret_inv in H1 as (b & -> & H1). simpl.
        apply bind_Ret_inv in H1 as (bs' & H1 & _).
        assert (mapM f (l1 ++ a' :: l2) = Throw e) as -> by (apply IH; eauto 10).
        done.
Qed.

Lemma mapM_Throw_Forall {A B} (f : A -> outcome B) (P : exn -> Prop)
    (l : list A) (e : exn) :
  Forall (fun a => forall e, f a = Throw e -> P e) l ->
  mapM f l = Throw e -> P e.
Proof.
  intros Hl H. apply mapM_Throw in H as (l1 & a & l2 & bs & -> & _ & H).
  apply Forall_app in Hl as [_ Hl]. inversion Hl; subst. auto.
Qed.

Lemma normalizeColorOrNull_Throw (c : value) (e : exn) :
  normalizeColorOrNull c = Throw e -> exists v, e = ColorParseError v.
Proof.
  unfold normalizeColorOrNull, normalizeHexColor, parseColor.
  destruct (truthy c); [|done]. destruct (Color c); simpl; [done|].
  intros [= <-]. eauto.
Qed.

Lemma normalizeComplexOrNull_Throw (c : value) (e : exn) :
  normalizeComplexOrNull c = Throw e -> exists v, e = ColorParseError v.
Proof.
  unfold normalizeComplexOrNull, normalizeHexOrComplexColor, parseColor.
  destruct (truthy c); [|done]. destruct (Color c); simpl.
  - by destruct (Qeq_bool _ _).
  - intros [= <-]. eauto.
Qed.

Lemma normalizeTextType_Throw props style c e :
  normalizeTextType props style c = Throw e -> textError e.
Proof.
  unfold normalizeTextType. intros H.
  apply bind_Throw_inv in H as [H|(text & _ & H)].
  - destruct (v_children props) as [n|l|[]]; try discriminate H;
      by apply text_throws in H.
  - apply bind_Throw_inv in H as [H|(? & _ & [=])].
    right. by eapply normalizeColorOrNull_Throw.
Qed.

(** X14: [normalizeSlideObject] throws nothing but these: the [TypeError]
    of a missing style, the [TypeError] of an invalid position, with a
    string that [/^\d+%$/] rejects, the [TypeError] of an invalid
    [TextChild], the exception of the color parser and the [Error] of an
    unknown slide object; this for the node itself and for the cells of its
    tables. *)
Theorem normalizeSlideObject_throws (node : Node) (e : exn) :
  normalizeSlideObject node = Throw e ->
  (exists t, e = TypeError ("A " +:+ tagOf t +:+ " object is missing style attribute")) \/
  (exists s, PERCENTAGE_REGEXP_test s = false /\ e = invalid_position s) \/
  (e = invalid_text_child \/ exists v, e = ColorParseError v) \/
  e = Error "unknown slide object".
Proof.
  change (normalizeSlideObject node = Throw e -> objectError e). revert e.
  induction node as [type props IH] using Node_rows_ind. intros e.
  rewrite normalizeSlideObject_unfold. cbn [nodeProps nodeType].
  destruct (v_style _) as [style|]; [|intros [= <-]; left; eauto]. cbv zeta.
  destruct (isKind LINE _).
  { intros H. apply bind_Throw_inv in H as [H|(? & _ & [=])].
    right; right; left; right. by eapply normalizeColorOrNull_Throw. }
  assert (Hpos : forall v d e, normalizeCoordinate v d = Throw e -> objectError e).
  { intros v d e' H. apply normalizeCoordinate_Throw in H as (s & _ & ? & ->).
    right; left; eauto. }
  intros H.
  apply bind_Throw_inv in H as [H|(nx & _ & H)]; [by eapply Hpos|].
  apply bind_Throw_inv in H as [H|(ny & _ & H)]; [by eapply Hpos|].
  apply bind_Throw_inv in H as [H|(nw & _ & H)]; [by eapply Hpos|].
  apply bind_Throw_inv in H as [H|(nh & _ & H)]; [by eapply Hpos|].
  destruct (isKind TEXT _).
  { apply bind_Throw_inv in H as [H|(? & _ & [=])].
    right; right; left. by eapply normalizeTextType_Throw. }
  destruct (isKind TABLE_CELL _).
  { apply bind_Throw_inv in H as [H|(? & _ & [=])].
    right; right; left. by eapply normalizeTextType_Throw. }
  destruct (isKind IMAGE _); [done|].
  destruct (isKind SHAPE _).
  { apply bind_Throw_inv in H as [H|(? & _ & H)].
    - right; right; left.
      destruct (v_children props) as [n|l|[]]; try discriminate H;
        apply bind_Throw_inv in H as [H|(? & _ & [=])]; by apply text_throws in H.
    - apply bind_Throw_inv in H as [H|(? & _ & H)].
      + right; right; left; right. by eapply normalizeComplexOrNull_Throw.
      + apply bind_Throw_inv in H as [H|(? & _ & [=])].
        right; right; left; right. by eapply normalizeColorOrNull_Throw. }
  destruct (isKind TABLE _); [|injection H as <-; by repeat right].
  apply bind_Throw_inv in H as [H|(? & _ & H)].
  - simpl in H. eapply mapM_Throw_Forall; [|exact H].
    eapply Forall_impl; [exact IH|]. intros row Hrow e' H'.
    eapply mapM_Throw_Forall; [|exact H'].
    eapply Forall_impl; [exact Hrow|]. intros [s|cell] Hcell e''; [done|].
    apply Hcell.
  - apply bind_Throw_inv in H as [H|(? & _ & [=])].
    right; right; left; right. by eapply normalizeColorOrNull_Throw.
Qed.

(** ** Further properties of the slides and the presentation *)

Lemma normalizeObjects_Throw (children : Children Node) (e : exn) :
  normalizeObjects children = Throw e <->
  exists before node after objects,
    flattenChildren children = before ++ node :: after /\
    mapM normalizeSlideObject before = Ret objects /\
    normalizeSlideObject node = Throw e.
Proof.
  unfold normalizeObjects. destruct (hasChildren children) eqn:Hc.
  - rewrite <- mapM_Throw. split.
    + intros H. by apply bind_Throw_inv in H as [H|(? & _ & [=])].
    + by intros ->.
  - split; [done|]. intros ([|? ?] & ? & ? & ? & Heq & _);
      by destruct children as [| |[| |[]]].
Qed.

(** X15: a slide, and a master slide, fails in two cases and no other: its
    background color is one that the parser rejects, and the exception is
    that of the parser; or the color is fine and one of its flattened
    children fails, and the exception is that of the first child that
    fails, the children before it having normalized. *)
Theorem slide_throws (el : SlideElement) (e : exn) :
  (normalizeSlide el = Throw e <->
   normalizeComplexOrNull (getOpt "backgroundColor" (s_style (s_props el))) = Throw e \/
   ((exists bg, normalizeComplexOrNull
                  (getOpt "backgroundColor" (s_style (s_props el))) = Ret bg) /\
    firstFailure normalizeSlideObject (flattenChildren (s_children (s_props el))) e)) /\
  (normalizeMasterSlide el = Throw e <->
   normalizeComplexOrNull (getOpt "backgroundColor" (s_style (s_props el))) = Throw e \/
   ((exists bg, normalizeComplexOrNull
                  (getOpt "backgroundColor" (s_style (s_props el))) = Ret bg) /\
    firstFailure normalizeSlideObject (flattenChildren (s_children (s_props el))) e)).
Proof.
  unfold firstFailure. rewrite <- normalizeObjects_Throw.
  unfold normalizeSlide, normalizeMasterSlide.
  destruct (normalizeComplexOrNull _) as [bg|e']; simpl.
  - split; (split;
      [intros H; right; split; [eauto|];
       by apply bind_Throw_inv in H as [H|(? & _ & [=])]
      |intros [[=]|[_ ->]]; done]).
  - split; (split; [intros [= <-]; by left|intros [[= <-]|[[? [=]] _]]; done]).
Qed.

Lemma last_is_Some {A} (l : list A) (a : A) : In a l -> is_Some (last l).
Proof.
  destruct l as [|b l] using rev_ind; [done|]. intros _.
  rewrite last_snoc. eauto.
Qed.

Lemma last_In {A} (l : list A) (a : A) : last l = Some a -> In a l.
Proof.
  destruct l as [|b l] using rev_ind; [done|].
  rewrite last_snoc. intros [= <-]. apply in_or_app. right. by left.
Qed.

Lemma Forall2_In_r {A B} (R : A -> B -> Prop) (l : list A) (l' : list B) (b : B) :
  Forall2 R l l' -> In b l' -> exists a, In a l /\ R a b.
Proof.
  induction 1 as [|a b' l l' Hab _ IH]; simpl; [done|].
  intros [<-|Hin]; [eauto|]. destruct (IH Hin) as (a' & ? & ?). eauto.
Qed.

Lemma Forall2_In_l {A B} (R : A -> B -> Prop) (l : list A) (l' : list B) (a : A) :
  Forall2 R l l' -> In a l -> exists b, In b l' /\ R a b.
Proof.
  induction 1 as [|a' b l l' Hab _ IH]; simpl; [done|].
  intros [<-|Hin]; [eauto|]. destruct (IH Hin) as (b' & ? & ?). eauto.
Qed.

Lemma normalizeMasterSlide_name (el : SlideElement) (m : InternalMasterSlide) :
  normalizeMasterSlide el = Ret m -> ms_name m = name (s_props el).
Proof.
  unfold normalizeMasterSlide. intros H.
  apply bind_Ret_inv in H as (bg & _ & H).
  by apply bind_Ret_inv in H as (os & _ & [= <-]).
Qed.

(** X16: in the presentation that [normalizeJsx] returns, every master
    slide stands under its own name and is the normalization of a child of
    type [master-slide] of this name; every such child has its name in the
    mapping; and there are as many slides as there are children of type
    [slide]. *)
Theorem masterSlides_by_name (props : PresentationProps)
    (out : InternalPresentation) :
  normalizeJsx props = Ret out ->
  (forall n m, masterSlides out !! n = Some m ->
     ms_name m = n /\
     exists child, In child (childrenOfType MASTER_SLIDE props) /\
                   name (s_props child) = n /\
                   normalizeMasterSlide child = Ret m) /\
  (forall child, In child (childrenOfType MASTER_SLIDE props) ->
     is_Some (masterSlides out !! name (s_props child))) /\
  List.length (slides out) = List.length (childrenOfType SLIDE props).
Proof.
  unfold normalizeJsx, childrenOfType.
  destruct (hasChildren (p_children props)) eqn:Hc.
  2: { intros [= <-]. simpl.
       assert (flattenChildren (p_children props) = []) as ->
         by (by destruct (p_children props) as [| |[| |[]]]).
       simpl. repeat split; try done. }
  intros H. apply bind_Ret_inv in H as (ss & Hss & H).
  apply bind_Ret_inv in H as (ms & Hms & [= <-]). simpl.
  apply mapM_length in Hss. apply mapM_Ret in Hms.
  split; [|split; [|done]].
  - intros n m. unfold fromEntries. rewrite fromEntries_lookup.
    destruct (last _) as [m'|] eqn:Hlast; [|done]. intros [= ->].
    apply last_In, filter_In in Hlast as [Hin Hn].
    apply String.eqb_eq in Hn. split; [done|].
    destruct (Forall2_In_r _ _ _ _ Hms Hin) as (child & Hchild & Hnorm).
    exists child. split; [done|]. split; [|done].
    by rewrite <- (normalizeMasterSlide_name _ _ Hnorm).
  - intros child Hchild.
    destruct (Forall2_In_l _ _ _ _ Hms Hchild) as (m & Hm & Hnorm).
    unfold fromEntries. rewrite fromEntries_lookup.
    destruct (last_is_Some
                (List.filter (fun m => String.eqb (ms_name m) (name (s_props child))) ms)
                m) as [m' ->]; [|eauto].
    apply filter_In. split; [done|].
    apply String.eqb_eq. by apply normalizeMasterSlide_name.
Qed.

(** X17: [normalizeJsx] fails in two cases and no other: a child of type
    [slide] fails, and the exception is that of the first one that does; or
    every slide normalizes and a child of type [master-slide] fails, and
    the exception is that of the first one.  So the failure of a slide
    comes before that of a master slide wherever the two stand among the
    children, and a child of another type never makes it fail. *)
Theorem normalizeJsx_throws (props : PresentationProps) (e : exn) :
  normalizeJsx props = Throw e <->
  firstFailure normalizeSlide (childrenOfType SLIDE props) e \/
  ((exists ss, mapM normalizeSlide (childrenOfType SLIDE props) = Ret ss) /\
   firstFailure normalizeMasterSlide (childrenOfType MASTER_SLIDE props) e).
Proof.
  unfold firstFailure. rewrite <- !mapM_Throw.
  unfold normalizeJsx, childrenOfType.
  destruct (hasChildren (p_children props)) eqn:Hc.
  - destruct (mapM normalizeSlide _) as [ss|e']; simpl.
    + split.
      * intros H. right. split; [eauto|].
        by apply bind_Throw_inv in H as [H|(? & _ & [=])].
      * intros [[=]|[_ ->]]. done.
    + split; [intros [= <-]; by left|]. by intros [[= <-]|[[? [=]] _]].
  - assert (flattenChildren (p_children props) = []) as ->
      by (by destruct (p_children props) as [| |[| |[]]]).
    simpl. split; [done|]. by intros [[=]|[_ [=]]].
Qed.

(** X18: the text of a shape is [null] when the node has no [children],
    and in this case alone: with [children], an empty array too, it is the
    list of runs of the children. *)
Theorem shape_text (node : Node) (type' : value)
    (text' : option (list InternalTextPart)) (c : Coordinates)
    (bg : option HexOrComplexColor) (bc : option HexColor) (bw : value) :
  normalizeSlideObject node = Ret (Some (InternalShape type' text' c bg bc bw)) ->
  match v_children (nodeProps node) with
  | TNoise NUndefined => text' = None
  | children => exists ps, normalizeText children = Ret ps /\ text' = Some ps
  end.
Proof.
  rewrite normalizeSlideObject_unfold.
  destruct (v_style (nodeProps node)) as [style|]; [|done]. cbv zeta.
  destruct (isKind LINE node).
  { intros H. by apply bind_Ret_inv in H as (? & _ & [=]). }
  intros H.
  apply bind_Ret_inv in H as (nx & _ & H).
  apply bind_Ret_inv in H as (ny & _ & H).
  apply bind_Ret_inv in H as (nw & _ & H).
  apply bind_Ret_inv in H as (nh & _ & H).
  destruct (isKind TEXT node).
  { by apply bind_Ret_inv in H as (? & _ & [=]). }
  destruct (isKind TABLE_CELL node).
  { by apply bind_Ret_inv in H as (? & _ & [=]). }
  destruct (isKind IMAGE node); [done|].
  destruct (isKind SHAPE node).
  2: { destruct (isKind TABLE node); [|done].
       apply bind_Ret_inv in H as (? & _ & H).
       by apply bind_Ret_inv in H as (? & _ & [=]). }
  apply bind_Ret_inv in H as (text0 & Ht & H).
  apply bind_Ret_inv in H as (? & _ & H).
  apply bind_Ret_inv in H as (? & _ & [= _ <- _ _ _ _]).
  destruct (v_children (nodeProps node)) as [n|l|[]];
    try (apply bind_Ret_inv in Ht as (ps & Hps & [= <-]); by eauto).
  by injection Ht as <-.
Qed.

Section GuardNesting.

Hypothesis guard_elements :
  forall e, isValidElement e = true -> isReactElementOrElementArray (TNode e) = true.

(** X19: how the arrays nest does not count: two inputs without noise
    that flatten to the same nodes normalize to the same result, runs or
    exception. *)
Theorem normalizeText_nesting (t1 t2 : TextChild) :
  noNoise t1 = true -> noNoise t2 = true ->
  flattenChildren (asChildren t1) = flattenChildren (asChildren t2) ->
  normalizeText t1 = normalizeText t2.
Proof.
  intros H1 H2 Hflat.
  pose proof (reduce_flattened guard_elements t1 H1 []) as R1.
  pose proof (reduce_flattened guard_elements t2 H2 []) as R2.
  rewrite Hflat, R2 in R1.
  destruct (normalizeText t1), (normalizeText t2); simpl in R1; congruence.
Qed.

End GuardNesting.

End Normalizer.

(** ** The examples *)

Lemma elementOrElements_elements (e : TextNode) :
  isValidElement e = true -> elementOrElements (TNode e) = true.
Proof. intros He. exact He. Qed.

Lemma holdsElement_elements (e : TextNode) :
  isValidElement e = true -> holdsElement (TNode e) = true.
Proof. intros He. exact He. Qed.

(** The float [0.015], [0x1.eb851eb851eb8p-7]: the float nearest to
    [15/1000], which lies below it. *)
Example round64_0015 :
  (round64 (3 # 200) == inject_Z 8646911284551352 * pow2 (-59))%Q /\
  (round64 (3 # 200) < 3 # 200)%Q.
Proof. vm_compute. split; reflexivity. Qed.

(** [0.015 * 100] is [1.5] in binary64, and below [1.5] in the rationals;
    the product of the IEEE 754 specification of the Standard Library is
    the same float. *)
Example times_0015 :
  (times (round64 (3 # 200)) 100 == 3 # 2)%Q /\
  (round64 (3 # 200) * 100 < 3 # 2)%Q /\
  SFmul64 (SpecFloat.S754_finite false 8646911284551352 (-59))
          (SpecFloat.S754_finite false 100 0) =
    SpecFloat.S754_finite false 6755399441055744 (-52) /\
  (SF2Q (SpecFloat.S754_finite false 6755399441055744 (-52)) == 3 # 2)%Q.
Proof. vm_compute. repeat split. Qed.

(** [times] and the binary64 product of the IEEE 754 specification of the
    Standard Library agree on these floats: the opacities [0.015], [0.145],
    [0.575], [0.29] and the float nearest to [1/3] by [100], two products
    below the least normal float that are ties, and a negative factor. *)
Example times_SFmul64 :
  Forall (fun xy : SpecFloat.spec_float * SpecFloat.spec_float =>
            (SF2Q (SFmul64 xy.1 xy.2) == times (SF2Q xy.1) (SF2Q xy.2))%Q)
    [ (SpecFloat.S754_finite false 8646911284551352 (-59),
       SpecFloat.S754_finite false 100 0);
      (SpecFloat.S754_finite false 5224175567749775 (-55),
       SpecFloat.S754_finite false 100 0);
      (SpecFloat.S754_finite false 5179139571476070 (-53),
       SpecFloat.S754_finite false 100 0);
      (SpecFloat.S754_finite false 5224175567749775 (-54),
       SpecFloat.S754_finite false 100 0);
      (SpecFloat.S754_finite false 6004799503160661 (-54),
       SpecFloat.S754_finite false 100 0);
      (SpecFloat.S754_finite false 3 (-1074),
       SpecFloat.S754_finite false 1 (-1));
      (SpecFloat.S754_finite false 5 (-1074),
       SpecFloat.S754_finite false 1 (-1));
      (SpecFloat.S754_finite true 6004799503160661 (-54),
       SpecFloat.S754_finite false 7 0) ].
Proof. repeat constructor; vm_compute; reflexivity. Qed.

(** For the opacity [0.015] the alpha is [98], since the binary64 product
    [0.015 * 100] is [1.5]; with the exact product it would be [99]. *)
Example normalizeHexOrComplexColor_0015 :
  normalizeHexOrComplexColor sampleColor (VStr "rgba(0,0,0,0.015)") =
    Ret (Complex (mkComplexColor "solid" "000000" (inject_Z 98))) /\
  (100 - Math_round (round64 (3 # 200) * 100))%Z = 99%Z.
Proof. vm_compute. split; reflexivity. Qed.

(** [normalizeHexOrComplexColor("rgba(0,0,0,0.25)")] *)
Example normalizeHexOrComplexColor_quarter :
  normalizeHexOrComplexColor sampleColor (VStr "rgba(0,0,0,0.25)") =
  Ret (Complex (mkComplexColor "solid" "000000" (inject_Z 75))).
Proof. vm_compute. reflexivity. Qed.

Lemma normalizeHexOrComplexColor_spec_witness :
  exists hexColor : string,
    hexColor = "000000" /\
    normalizeHexOrComplexColor sampleColor (VStr "rgba(0,0,0,0.25)") =
      Ret (Complex (mkComplexColor "solid" hexColor (inject_Z 75))) /\
    (0 <= 75 <= 100)%Z.
Proof.
  destruct (normalizeHexOrComplexColor_spec sampleColor
              (VStr "rgba(0,0,0,0.25)") (mkColor "#000000" (1 # 4)))
    as (hexColor & _ & Hhex & _ & _ & _ & Hsolid & Hrange & _).
  - vm_compute. reflexivity.
  - exists "000000". vm_compute. repeat split.
  - vm_compute. discriminate.
  - vm_compute. discriminate.
  - exists hexColor. split; [exact Hhex|]. split.
    + apply Hsolid. vm_compute. discriminate.
    + exact Hrange.
Defined.

(** C4 as it is stated fails for the opacity [0.125]: the transparency is
    [100 - Math.round(12.5) = 87], and [Math.round(100 (1 - 0.125))] is
    [88].  Every number on the way is a float, so that the claim's formula
    is [88] in binary64 as it is in the rationals. *)
Lemma normalizeHexOrComplexColor_tie_counterexample :
  normalizeHexOrComplexColor sampleColor (VStr "rgba(0,0,0,0.125)") =
    Ret (Complex (mkComplexColor "solid" "000000" (inject_Z 87))) /\
  (round64 (1 # 8) == 1 # 8)%Q /\
  (times (1 # 8) 100 == 25 # 2)%Q /\
  Math_round (100 * (1 - (1 # 8))) = 88%Z /\
  Math_round (times 100%Q (round64 (1 - (1 # 8)))) = 88%Z /\
  normalizeHexOrComplexColor sampleColor (VStr "rgba(0,0,0,0.125)") <>
    Ret (Complex (mkComplexColor "solid" "000000"
                    (inject_Z (Math_round (100 * (1 - (1 # 8))))))).
Proof. vm_compute. repeat split. discriminate. Qed.

Lemma normalizeText_array_witness :
  normalizeText sampleColor sampleToString elementOrElements (TArray abc) =
  Ret [plainPart "a"; plainPart "b"; plainPart "c"].
Proof.
  rewrite (normalizeText_array sampleColor sampleToString elementOrElements
             elementOrElements_elements abc eq_refl).
  vm_compute. reflexivity.
Defined.

(** The same through the other guard, which sends an array that holds an
    element to the walk of its flattened nodes. *)
Example normalizeText_array_mixed :
  normalizeText sampleColor sampleToString holdsElement
    (TArray [TNode (TString "a");
             TArray [TNode (TextLink exampleLink); TNode (TString "c")]]) =
  do rss <- mapM (normalizeText sampleColor sampleToString holdsElement)
              [TNode (TString "a");
               TArray [TNode (TextLink exampleLink); TNode (TString "c")]];
  Ret (concat rss).
Proof.
  apply (normalizeText_members sampleColor sampleToString holdsElement
           holdsElement_elements). reflexivity.
Qed.

Lemma bullet_runs_witness :
  exists r1 r2,
    normalizeText sampleColor sampleToString elementOrElements bulletOfTwo
      = Ret [r1; r2] /\
    breakLine r1 = Defined false /\ breakLine r2 = Defined true /\
    bullet r1 = Defined (BulletOptions {[ "indent" := VNum 10%Q ]}) /\
    bullet r2 = Undefined.
Proof.
  eexists _, _. split; [vm_compute; reflexivity|].
  match goal with |- breakLine ?r1 = _ /\ breakLine ?r2 = _ /\ _ =>
    assert (Hout : normalizeText sampleColor sampleToString elementOrElements
                     bulletOfTwo = Ret [r1; r2]) by (vm_compute; reflexivity)
  end.
  destruct (bullet_runs sampleColor sampleToString elementOrElements
              elementOrElements_elements _ _ _ Hout)
    as (nc & _ & _ & Hbreak & _ & Hbullet).
  split; [exact (Hbreak 0%nat _ eq_refl)|].
  split; [exact (Hbreak 1%nat _ eq_refl)|].
  split; [exact (Hbullet eq_refl 0%nat _ eq_refl)|].
  exact (Hbullet eq_refl 1%nat _ eq_refl).
Defined.

(** C1 as it is stated fails for a bullet around bullets: each of the two
    runs keeps the bullet of its own marker, so that the value of the outer
    marker is on no run and the second run has a bullet. *)
Lemma bullet_marker_counterexample :
  exists r1 r2,
    normalizeText sampleColor sampleToString elementOrElements nestedBullets
      = Ret [r1; r2] /\
    bullet r1 = Defined BulletTrue /\
    bullet r2 = Defined BulletTrue /\
    bullet r1 <> Defined (bulletOf (tb_bulletProps indentedBullet)) /\
    bullet r2 <> Undefined /\ bullet r2 <> NoKey.
Proof.
  eexists _, _. split; [vm_compute; reflexivity|].
  vm_compute. repeat split; discriminate.
Qed.

(** C2, on an input where the code departs from it: a bullet whose style
    has the color red, around a link that has no style.  The style of the
    run of the link owns the key [color] with the value [undefined], which
    the spread keeps: the color [FF0000] of the marker does not fill the
    gap.  Around a string, it does. *)
Theorem bullet_color_not_inherited_by_link :
  tl_style exampleLink = None /\
  normalizeStyleColor sampleColor (tb_style redBullet) = Ret (VStr "FF0000") /\
  (exists run,
     normalizeText sampleColor sampleToString elementOrElements
       (TNode (TextBullet (TNode (TextLink exampleLink)) redBullet)) = Ret [run] /\
     style run !! "color" = Some VUndefined) /\
  (exists run,
     normalizeText sampleColor sampleToString elementOrElements
       (TNode (TextBullet (TNode (TString "x")) redBullet)) = Ret [run] /\
     style run !! "color" = Some (VStr "FF0000")).
Proof.
  split; [reflexivity|]. split; [vm_compute; reflexivity|].
  split; eexists; (split; [vm_compute; reflexivity|]); vm_compute; reflexivity.
Qed.

(** C9, on an input where the code departs from it: a bullet with
    [rtlMode] and [lang], around a link that sets neither.  The run of the
    link owns both keys with the value [undefined], which the spread keeps:
    the [rtlMode] and the [lang] of the marker do not reach the run.
    Around a string, they do. *)
Theorem bullet_rtlMode_not_inherited_by_link :
  tl_rtlMode exampleLink = None /\ tl_lang exampleLink = None /\
  (exists run,
     normalizeText sampleColor sampleToString elementOrElements
       (TNode (TextBullet (TNode (TextLink exampleLink)) rtlBullet)) = Ret [run] /\
     rtlMode run = Undefined /\ lang run = Undefined) /\
  (exists run,
     normalizeText sampleColor sampleToString elementOrElements
       (TNode (TextBullet (TNode (TString "x")) rtlBullet)) = Ret [run] /\
     rtlMode run = Defined true /\ lang run = Defined "he").
Proof.
  split; [reflexivity|]. split; [reflexivity|].
  split; eexists; (split; [vm_compute; reflexivity|]); vm_compute; by split.
Qed.

(** C3 as it is stated fails for a line: without a style, it throws the
    same [TypeError] as any other node. *)
Lemma line_without_style_counterexample :
  nodeType lineWithoutStyle = LINE /\
  normalizeSlideObject sampleColor sampleToString elementOrElements lineWithoutStyle =
  Throw (TypeError "A line object is missing style attribute").
Proof. vm_compute. by split. Qed.

Lemma table_cells_witness :
  exists out,
    normalizeSlideObject sampleColor sampleToString elementOrElements exampleTable
      = Ret out /\
    exists rows' coordinates borderColor borderWidth margin,
      out = Some (InternalTable rows' coordinates borderColor borderWidth margin) /\
      Forall2 (Forall2 (normalizesTo
                 (normalizeSlideObject sampleColor sampleToString elementOrElements)))
              [[inl "a"; inr exampleCell]; [inl "b"]] rows'.
Proof.
  eexists. split; [vm_compute; reflexivity|].
  apply (table_cells sampleColor sampleToString elementOrElements exampleTable).
  - reflexivity.
  - vm_compute. reflexivity.
Defined.

Lemma objects_one_per_child_witness :
  exists objects,
    normalizeObjects sampleColor sampleToString elementOrElements exampleObjects
      = Ret objects /\
    List.length objects = 2%nat /\
    mapM (normalizeSlideObject sampleColor sampleToString elementOrElements)
         [exampleText; exampleTable] = Ret (map Some objects).
Proof.
  eexists. split; [vm_compute; reflexivity|].
  match goal with |- List.length ?os = _ /\ _ =>
    assert (Hout : normalizeObjects sampleColor sampleToString elementOrElements
                     exampleObjects = Ret os) by (vm_compute; reflexivity)
  end.
  destruct (objects_one_per_child sampleColor sampleToString elementOrElements
              _ _ Hout) as (_ & Hmap & Hlen & _).
  split; [exact Hlen|exact Hmap].
Defined.

Lemma normalizeJsx_children_witness :
  exists out second,
    normalizeJsx sampleColor sampleToString elementOrElements examplePresentation
      = Ret out /\
    List.length (slides out) = 1%nat /\
    normalizeMasterSlide sampleColor sampleToString elementOrElements
      (mkSlideElement MASTER_SLIDE (slideProps "m" None (ChNode exampleText)))
      = Ret second /\
    masterSlides out !! "m" = Some second /\
    normalizeJsx sampleColor sampleToString elementOrElements
      (slidesOnly examplePresentation) = Ret out.
Proof.
  eexists _, _. split; [vm_compute; reflexivity|].
  match goal with |- List.length (slides ?o) = _ /\ _ =>
    assert (Hout : normalizeJsx sampleColor sampleToString elementOrElements
                     examplePresentation = Ret o) by (vm_compute; reflexivity)
  end.
  destruct (normalizeJsx_children sampleColor sampleToString elementOrElements
              _ _ Hout) as (Hslides & (masters & Hmasters & Hlookup) & Honly).
  split; [vm_compute; reflexivity|].
  split; [vm_compute; reflexivity|].
  split; [|exact Honly].
  rewrite Hlookup.
  assert (Hm : mapM (normalizeMasterSlide sampleColor sampleToString elementOrElements)
            (List.filter (hasType MASTER_SLIDE)
               (flattenChildren (p_children examplePresentation))) = Ret masters)
    by exact Hmasters.
  vm_compute in Hm. injection Hm as <-. vm_compute. reflexivity.
Defined.

(** [null] is no [TextChild]: [normalizeText] throws on it, alone or as a
    member of an array that the guard does not accept. *)
Example normalizeText_null :
  normalizeText sampleColor sampleToString elementOrElements (TNoise NNull) =
    Throw invalid_text_child /\
  normalizeText sampleColor sampleToString elementOrElements
    (TArray [TNode (TNumber 42%Q); TNoise NNull]) = Throw invalid_text_child.
Proof. vm_compute. by split. Qed.

(** A color that the parser rejects ends the normalization of the text. *)
Example normalizeText_bad_color :
  normalizeText sampleColor sampleToString elementOrElements
    (TNode (TextBullet (TNode (TString "a"))
              {| tb_style := Some {[ "color" := VStr "no color" ]};
                 tb_rtlMode := None; tb_lang := None; tb_bulletProps := ∅ |})) =
  Throw (ColorParseError (VStr "no color")).
Proof. vm_compute. reflexivity. Qed.

(** A line that has a style: its [x] is not looked at. *)
Example normalizeSlideObject_line :
  normalizeSlideObject sampleColor sampleToString elementOrElements
    (Element LINE
       (withStyle {[ "color" := VStr "red"; "x" := VStr "left" ]} bareProps)) =
  Ret (Some (InternalLine VUndefined VUndefined VUndefined VUndefined
               (Some "FF0000") VNull)) /\
  normalizeSlideObject sampleColor sampleToString elementOrElements
    (Element SHAPE
       (withStyle {[ "color" := VStr "red"; "x" := VStr "left" ]} bareProps)) =
  Throw (invalid_position "left").
Proof. vm_compute. by split. Qed.

(** An element of a type that is no visual node. *)
Example normalizeSlideObject_unknown :
  normalizeSlideObject sampleColor sampleToString elementOrElements
    (Element SLIDE (withStyle ∅ bareProps)) =
  Throw (Error "unknown slide object").
Proof. vm_compute. reflexivity. Qed.

(** ** The examples of the further properties *)

Lemma transparency_antitone_witness : (inject_Z 75 <= inject_Z 87)%Q.
Proof.
  refine (proj2 (proj2 (transparency_antitone sampleColor
           (VStr "rgba(0,0,0,0.125)") (VStr "rgba(0,0,0,0.25)")
           (mkColor "#000000" (1 # 8)) (mkColor "#000000" (1 # 4))
           (mkComplexColor "solid" "000000" (inject_Z 87))
           (mkComplexColor "solid" "000000" (inject_Z 75))
           _ _ _ _ _ _ _))).
  - vm_compute. reflexivity.
  - vm_compute. reflexivity.
  - vm_compute. discriminate.
  - vm_compute. discriminate.
  - vm_compute. discriminate.
  - vm_compute. reflexivity.
  - vm_compute. reflexivity.
Defined.

Lemma normalizeCoordinate_canonical_witness :
  isPosition (VStr "50%") = true /\
  forall d, normalizeCoordinate (VStr "50%") d = Ret (VStr "50%").
Proof. apply (normalizeCoordinate_canonical (VStr "50%") 0%Q). reflexivity. Defined.

Lemma normalizeText_leaves_witness :
  exists out,
    normalizeText sampleColor sampleToString elementOrElements bulletOfTwo = Ret out /\
    map (fun part => (text part, link part)) out =
      [("a", NoKey);
       ("x", Defined (LinkUrl (VStr "https://example.com") VUndefined))] /\
    List.length out = 2%nat.
Proof.
  eexists. split; [vm_compute; reflexivity|].
  match goal with |- map _ ?out = _ /\ _ =>
    assert (Hout : normalizeText sampleColor sampleToString elementOrElements
                     bulletOfTwo = Ret out) by (vm_compute; reflexivity)
  end.
  exact (normalizeText_leaves sampleColor sampleToString elementOrElements _ _ Hout).
Defined.

Lemma normalizeText_plain_witness :
  normalizeText sampleColor sampleToString holdsElement (TArray abc) =
  Ret [ {| text := "a"; style := ∅; rtlMode := NoKey; lang := NoKey;
           link := NoKey; bullet := NoKey; breakLine := NoKey |};
        {| text := "b"; style := ∅; rtlMode := NoKey; lang := NoKey;
           link := NoKey; bullet := NoKey; breakLine := NoKey |};
        {| text := "c"; style := ∅; rtlMode := NoKey; lang := NoKey;
           link := NoKey; bullet := NoKey; breakLine := NoKey |} ].
Proof.
  exact (proj1 (normalizeText_plain sampleColor sampleToString holdsElement
                  (TArray abc) eq_refl)).
Defined.

Lemma normalizeText_throws_witness :
  invalid_text_child =
    TypeError "Invalid TextChild found; only strings/numbers/arrays of them are accepted" \/
  exists v, invalid_text_child = ColorParseError v.
Proof.
  apply (normalizeText_throws sampleColor sampleToString elementOrElements
           (TArray [TNode (TString "a"); TNoise NNull])).
  vm_compute. reflexivity.
Defined.

Lemma normalizeText_outside_bullets_witness :
  exists out,
    normalizeText sampleColor sampleToString holdsElement stringAndLink = Ret out /\
    Forall (fun r => bullet r = NoKey /\ breakLine r = NoKey) out.
Proof.
  eexists. split; [vm_compute; reflexivity|].
  apply (normalizeText_outside_bullets sampleColor sampleToString holdsElement
           stringAndLink).
  - reflexivity.
  - vm_compute. reflexivity.
Defined.

Lemma normalizeText_returns_witness :
  exists out,
    normalizeText sampleColor sampleToString elementOrElements redBulletOfTwo
      = Ret out.
Proof.
  apply (normalizeText_returns sampleColor sampleToString elementOrElements
           elementOrElements_elements).
  vm_compute. reflexivity.
Defined.

Lemma bullet_runs_own_keys_witness :
  exists out,
    normalizeText sampleColor sampleToString elementOrElements bulletOfTwo = Ret out /\
    Forall (fun r => rtlMode r <> NoKey /\ lang r <> NoKey /\ bullet r <> NoKey /\
                     breakLine r <> NoKey /\ is_Some (style r !! "color")) out.
Proof.
  eexists. split; [vm_compute; reflexivity|].
  apply (bullet_runs_own_keys sampleColor sampleToString elementOrElements
           elementOrElements_elements
           (TArray [TNode (TString "a"); TNode (TextLink exampleLink)])
           indentedBullet).
  vm_compute. reflexivity.
Defined.

Lemma slide_object_positions_witness :
  exists o,
    normalizeSlideObject sampleColor sampleToString elementOrElements exampleText
      = Ret (Some o) /\
    positionsOf o = Some [VStr "10%"; VNum 0%Q; VNum 1%Q; VNum 1%Q].
Proof.
  eexists. split; [vm_compute; reflexivity|].
  match goal with |- positionsOf ?o = _ =>
    assert (Hout : normalizeSlideObject sampleColor sampleToString
                     elementOrElements exampleText = Ret (Some o))
      by (vm_compute; reflexivity)
  end.
  destruct (slide_object_positions sampleColor sampleToString elementOrElements
              exampleText {[ "x" := VStr "10%" ]} _ eq_refl ltac:(discriminate) Hout)
    as (nx & ny & nw & nh & Hx & Hy & Hw & Hh & Hpos & _).
  vm_compute in Hx, Hy, Hw, Hh.
  injection Hx as <-. injection Hy as <-. injection Hw as <-. injection Hh as <-.
  exact Hpos.
Defined.

Lemma slide_object_kind_witness :
  exists ts st,
    normalizeSlideObject sampleColor sampleToString elementOrElements exampleCell
      = Ret (Some (InternalText ts st (Some (VUndefined, VUndefined)))).
Proof.
  assert (H : exists o,
    normalizeSlideObject sampleColor sampleToString elementOrElements exampleCell
      = Ret (Some o)) by (eexists; vm_compute; reflexivity).
  destruct H as [o Ho].
  destruct (slide_object_kind sampleColor sampleToString elementOrElements
              exampleCell o Ho) as (ts & st & ->).
  exists ts, st. exact Ho.
Defined.

Lemma invalid_position_any_kind_witness :
  exists s', PERCENTAGE_REGEXP_test s' = false /\
    normalizeSlideObject sampleColor sampleToString elementOrElements wideSlide =
    Throw (invalid_position s').
Proof.
  apply (invalid_position_any_kind sampleColor sampleToString elementOrElements
           wideSlide {[ "w" := VStr "wide" ]} "w" "wide").
  - reflexivity.
  - discriminate.
  - simpl. auto.
  - vm_compute. reflexivity.
  - vm_compute. reflexivity.
Defined.

Lemma text_style_complete_witness :
  exists ts st,
    normalizeSlideObject sampleColor sampleToString elementOrElements exampleText
      = Ret (Some (InternalText ts st None)) /\
    st !! "fontFace" = Some (VStr "Arial") /\
    st !! "fontSize" = Some (VNum 18%Q) /\
    st !! "color" = Some VNull /\
    st !! "bold" = None.
Proof.
  eexists _, _. split; [vm_compute; reflexivity|].
  match goal with |- ?st !! _ = _ /\ _ =>
    assert (Hout : exists ts,
      normalizeSlideObject sampleColor sampleToString elementOrElements exampleText
        = Ret (Some (InternalText ts st None)))
      by (eexists; vm_compute; reflexivity)
  end.
  destruct Hout as [ts Hout].
  destruct (text_style_complete sampleColor sampleToString elementOrElements
              exampleText {[ "x" := VStr "10%" ]} _ _ _ eq_refl Hout)
    as (Hother & Hface & Hsize & Hcolor & _).
  split; [exact Hface|]. split; [exact Hsize|]. split; [exact Hcolor|].
  rewrite Hother; [vm_compute; reflexivity|].
  simpl. intros [H|[H|[H|[H|[H|[H|[H|[]]]]]]]]; discriminate H.
Defined.

Lemma normalizeSlideObject_throws_witness :
  (exists t, missing_style TABLE_CELL =
             TypeError ("A " +:+ tagOf t +:+ " object is missing style attribute")) \/
  (exists s, PERCENTAGE_REGEXP_test s = false /\
             missing_style TABLE_CELL = invalid_position s) \/
  (missing_style TABLE_CELL = invalid_text_child \/
   exists v, missing_style TABLE_CELL = ColorParseError v) \/
  missing_style TABLE_CELL = Error "unknown slide object".
Proof.
  apply (normalizeSlideObject_throws sampleColor sampleToString elementOrElements
           brokenTable).
  vm_compute. reflexivity.
Defined.

Lemma masterSlides_by_name_witness :
  exists out m,
    normalizeJsx sampleColor sampleToString elementOrElements twoMasters = Ret out /\
    masterSlides out !! "n" = Some m /\ ms_name m = "n" /\
    List.length (slides out) = 1%nat.
Proof.
  assert (H : exists out,
    normalizeJsx sampleColor sampleToString elementOrElements twoMasters = Ret out)
    by (eexists; vm_compute; reflexivity).
  destruct H as [out Hout].
  destruct (masterSlides_by_name sampleColor sampleToString elementOrElements
              twoMasters out Hout) as (Hname & Hdom & Hlen).
  destruct (Hdom (mkSlideElement MASTER_SLIDE
                    (slideProps "n" None (ChNoise NUndefined))))
    as [m Hm]; [vm_compute; auto|].
  exists out, m. split; [exact Hout|]. split; [exact Hm|].
  split; [exact (proj1 (Hname "n" m Hm))|exact Hlen].
Defined.

Lemma shape_text_witness :
  exists c bg bc bw,
    normalizeSlideObject sampleColor sampleToString elementOrElements emptyShape
      = Ret (Some (InternalShape VUndefined (Some []) c bg bc bw)).
Proof.
  assert (H : exists text' c bg bc bw,
    normalizeSlideObject sampleColor sampleToString elementOrElements emptyShape
      = Ret (Some (InternalShape VUndefined text' c bg bc bw)))
    by (do 5 eexists; vm_compute; reflexivity).
  destruct H as (text' & c & bg & bc & bw & Ho).
  destruct (shape_text sampleColor sampleToString elementOrElements
              emptyShape _ _ _ _ _ _ Ho) as (ps & Hps & ->).
  vm_compute in Hps. injection Hps as <-.
  exists c, bg, bc, bw. exact Ho.
Defined.

Lemma normalizeText_nesting_witness :
  normalizeText sampleColor sampleToString elementOrElements (TArray abc) =
  normalizeText sampleColor sampleToString elementOrElements
    (TArray [TNode (TString "a"); TNode (TString "b"); TNode (TString "c")]).
Proof.
  apply (normalizeText_nesting sampleColor sampleToString elementOrElements
           elementOrElements_elements); reflexivity.
Defined.

Lemma normalizeHexColor_shape_witness :
  exists hexColor,
    normalizeHexColor sampleColor (VStr "red") = Ret hexColor /\
    String.length hexColor = 6%nat /\
    allChars isUpperHex hexColor = true.
Proof.
  apply (normalizeHexColor_shape sampleColor (VStr "red") (mkColor "#FF0000" 1%Q)).
  - vm_compute. reflexivity.
  - exists "FF0000". vm_compute. repeat split.
Defined.
